(** * lr_calc: scanner, Pratt parser and evaluator (src/src/scanner.rs,
    src/src/ast.rs, src/src/evaluator.rs), embedded in Rocq.

    Modelling choices:
    - Rust's [f64] is Rocq's primitive binary64 [float] (IEEE 754, the same
      format and rounding as Rust's [+ - * /], [abs] and negation).
    - The input text is an ASCII [string]; [char_indices] then yields byte
      offsets equal to character indices, and [char::is_numeric] /
      [char::is_alphabetic] are the ASCII digit / letter tests.
    - A [panic!] is an explicit [Panic] outcome.
    - The recursive loops (scanner loop, Pratt parser) run on fuel; running
      out is a distinct [OutOfFuel] outcome, and the fuel given by [scan]
      and [build] is enough for every input ([evaluate_never_out_of_fuel]). *)

From Stdlib Require Import String Ascii List ZArith Lia Bool Floats Sorting.
Import ListNotations.

Open Scope string_scope.
Set Warnings "-inexact-float,-register-all".

(** ** f64 helpers (Rust's [as] casts and the [%] remainder) *)

Definition prec53 : Z := FloatOps.prec.
Definition emax1024 : Z := FloatOps.emax.

(** [i as f64] for an unsigned integer [i]: round to nearest, ties to even. *)
Definition u64_to_f64 (i : Z) : float :=
  SF2Prim (binary_normalize prec53 emax1024 i 0 false).

(** [x as u64]: truncation toward zero, saturating at [0] and [u64::MAX];
    NaN goes to [0]. *)
Definition u64_max : Z := 2 ^ 64 - 1.

Definition f64_to_u64 (x : float) : Z :=
  match Prim2SF x with
  | S754_zero _ | S754_nan => 0
  | S754_infinity s => if s then 0 else u64_max
  | S754_finite true _ _ => 0
  | S754_finite false m e =>
      let v := if (0 <=? e)%Z then Z.shiftl (Zpos m) e
               else Z.shiftr (Zpos m) (- e) in
      Z.min v u64_max
  end.

(** The IEEE [fmod] remainder that Rust's [%] on [f64] computes: exact,
    with the sign of the dividend. *)
Definition SFfmod (x y : spec_float) : spec_float :=
  match x, y with
  | S754_nan, _ | _, S754_nan => S754_nan
  | S754_infinity _, _ => S754_nan
  | _, S754_zero _ => S754_nan
  | S754_zero sx, _ => S754_zero sx
  | S754_finite _ _ _, S754_infinity _ => x
  | S754_finite sx mx ex, S754_finite _ my ey =>
      let e := Z.min ex ey in
      let X := Z.shiftl (Zpos mx) (ex - e) in
      let Y := Z.shiftl (Zpos my) (ey - e) in
      let R := Z.modulo X Y in
      binary_normalize prec53 emax1024 (if sx then Z.opp R else R) e sx
  end.

Definition f64_rem (x y : float) : float := SF2Prim (SFfmod (Prim2SF x) (Prim2SF y)).

(** ** Rust's [str::parse::<f64>], on the strings [take_number] can capture
    (ASCII digits, ['.'] and ['E']): grammar
    [(Digit+ | Digit+ '.' Digit* | Digit* '.' Digit+) ('E' Digit+)?],
    value correctly rounded to nearest, ties to even. *)

Definition is_digit (c : ascii) : bool :=
  let n := nat_of_ascii c in (48 <=? n)%nat && (n <=? 57)%nat.

Definition digit_val (c : ascii) : Z := Z.of_nat (nat_of_ascii c - 48).

(** Reads a run of digits; returns the value, the count and the rest. *)
Fixpoint read_digits (l : list ascii) (acc : Z) (n : nat) : Z * nat * list ascii :=
  match l with
  | c :: r => if is_digit c then read_digits r (10 * acc + digit_val c) (S n)
              else (acc, n, l)
  | [] => (acc, n, [])
  end.

(** The correctly rounded binary64 value of [d * 10 ^ t]. *)
Definition decimal_to_f64 (d : Z) (t : Z) : float :=
  if (0 <=? t)%Z then SF2Prim (binary_normalize prec53 emax1024 (d * 10 ^ t) 0 false)
  else match d with
       | Zpos p =>
           let '(q, e', l) := SFdiv_core_binary prec53 emax1024 (Zpos p) 0 (10 ^ (- t)) 0 in
           SF2Prim (binary_round_aux prec53 emax1024 false q e' l)
       | _ => zero
       end.

Definition parse_f64 (s : string) : option float :=
  let l := list_ascii_of_string s in
  let '(ip, ni, r1) := read_digits l 0 0 in
  let '(mant, nf, r2) :=
    match r1 with
    | "."%char :: r => let '(v, nf, r') := read_digits r ip 0 in (v, nf, r')
    | _ => (ip, 0%nat, r1)
    end in
  if ((ni + nf) =? 0)%nat then None
  else
    match r2 with
    | [] => Some (decimal_to_f64 mant (- Z.of_nat nf))
    | "E"%char :: r =>
        let '(ev, ne, r3) := read_digits r 0 0 in
        match r3, ne with
        | [], S _ => Some (decimal_to_f64 mant (ev - Z.of_nat nf))
        | _, _ => None
        end
    | _ => None
    end.

Example parse_f64_ex1 : parse_f64 "103" = Some 103%float.
Proof. reflexivity. Qed.
Example parse_f64_ex2 : parse_f64 "0.1" = Some 0.1%float.
Proof. reflexivity. Qed.
Example parse_f64_ex3 : parse_f64 "1.5E2" = Some 150%float.
Proof. reflexivity. Qed.
Example parse_f64_ex4 : parse_f64 "123.45.3" = None.
Proof. reflexivity. Qed.
Example parse_f64_ex5 : parse_f64 "321.23" = Some 321.23%float.
Proof. reflexivity. Qed.
Example fmod_ex : f64_rem 7 9 = 7%float /\ f64_rem (-7) 3 = (-1)%float
  /\ f64_rem 5.5 2 = 1.5%float.
Proof. repeat split; reflexivity. Qed.
Example u64_ex : f64_to_u64 3.7 = 3%Z /\ f64_to_u64 (-2) = 0%Z.
Proof. split; reflexivity. Qed.

(** ** Scanner (src/src/scanner.rs) *)

Inductive STokenType :=
| Number (n : float)
| Str (s : string)
| Plus | Minus | Multiplication | Division | Modulo | Power | Factorial
| Comma | Lparen | Rparen | Equals | Bar
| End
| None_.

Record Token := { t : STokenType; pos : nat }.

(** [expr.char_indices()] *)
Fixpoint char_indices_from (i : nat) (s : string) : list (nat * ascii) :=
  match s with
  | EmptyString => []
  | String c r => (i, c) :: char_indices_from (S i) r
  end.

Definition char_indices (s : string) : list (nat * ascii) := char_indices_from 0 s.

(** [char::is_numeric] and [char::is_alphabetic] on ASCII. *)
Definition is_numeric (c : ascii) : bool := is_digit c.

Definition is_alphabetic (c : ascii) : bool :=
  let n := nat_of_ascii c in
  ((65 <=? n)%nat && (n <=? 90)%nat) || ((97 <=? n)%nat && (n <=? 122)%nat).

(** [&expr[start..end_plus_1]] *)
Definition slice (expr : string) (start end_plus_1 : nat) : string :=
  substring start (end_plus_1 - start) expr.

(** The peek/next loop of [take_number]: returns the last [end] and the
    iterator left over. *)
Fixpoint take_number_loop (it : list (nat * ascii)) (end_ : nat)
  : nat * list (nat * ascii) :=
  match it with
  | [] => (end_, [])
  | (i, c) :: rest =>
      if is_numeric c || Ascii.eqb c "." || Ascii.eqb c "E"
      then take_number_loop rest i
      else (end_, it)
  end.

(** [take_number]; [None] is the [panic!("Wrong format number!")]. *)
Definition take_number (expr : string) (it : list (nat * ascii)) (index : nat)
  : option (STokenType * list (nat * ascii)) :=
  let '(end_, it') := take_number_loop it index in
  match parse_f64 (slice expr index (end_ + 1)) with
  | Some n => Some (Number n, it')
  | None => None
  end.

Fixpoint take_str_loop (it : list (nat * ascii)) (end_ : nat)
  : nat * list (nat * ascii) :=
  match it with
  | [] => (end_, [])
  | (i, c) :: rest =>
      if is_alphabetic c then take_str_loop rest i else (end_, it)
  end.

Definition take_str (expr : string) (it : list (nat * ascii)) (index : nat)
  : STokenType * list (nat * ascii) :=
  let '(end_, it') := take_str_loop it index in
  (Str (slice expr index (end_ + 1)), it').

(** [get_next_token]: the token and the iterator after it; [None] is a panic. *)
Definition get_next_token (expr : string) (it : list (nat * ascii))
  : option (Token * list (nat * ascii)) :=
  match it with
  | [] => Some ({| t := End; pos := 0 |}, [])
  | (i, c) :: rest =>
      let single k := Some ({| t := k; pos := i |}, rest) in
      match c with
      | "+"%char => single Plus
      | "-"%char => single Minus
      | "/"%char => single Division
      | "%"%char => single Modulo
      | "^"%char => single Power
      | "!"%char => single Factorial
      | ","%char => single Comma
      | "("%char => single Lparen
      | ")"%char => single Rparen
      | "["%char => single Lparen
      | "]"%char => single Rparen
      | "="%char => single Equals
      | "|"%char => single Bar
      | "*"%char =>
          match rest with
          | [] => Some ({| t := Multiplication; pos := i |}, [])
          | (_, d) :: rest' =>
              if Ascii.eqb d "*" then Some ({| t := Power; pos := i |}, rest')
              else single Multiplication
          end
      | _ =>
          if is_numeric c || Ascii.eqb c "." then
            match take_number expr rest i with
            | Some (k, it') => Some ({| t := k; pos := i |}, it')
            | None => None
            end
          else if is_alphabetic c then
            let '(k, it') := take_str expr rest i in Some ({| t := k; pos := i |}, it')
          else single None_
      end
  end.

Inductive ScanResult :=
| Scanned (tokens : list Token)
| ScanPanic
| ScanOutOfFuel.

(** The loop of [scan]: [tokens] is the vector pushed so far. *)
Fixpoint scan_loop (fuel : nat) (expr : string) (it : list (nat * ascii))
  (tokens : list Token) : ScanResult :=
  match fuel with
  | O => ScanOutOfFuel
  | S fuel' =>
      match get_next_token expr it with
      | None => ScanPanic
      | Some (token, it') =>
          match t token with
          | End => Scanned (tokens ++ [{| t := End; pos := 0 |}])
          | None_ => scan_loop fuel' expr it' tokens
          | _ => scan_loop fuel' expr it' (tokens ++ [token])
          end
      end
  end.

(** [Scanner::new(expr)] followed by [scan()]: each step consumes at least
    one character, so [length + 1] steps suffice. *)
Definition scan (expr : string) : ScanResult :=
  scan_loop (S (String.length expr)) expr (char_indices expr) [].

Example scan_ex1 : scan "103 + 1" =
  Scanned [{| t := Number 103; pos := 0 |}; {| t := Plus; pos := 4 |};
           {| t := Number 1; pos := 6 |}; {| t := End; pos := 0 |}].
Proof. reflexivity. Qed.
Example scan_ex2 : scan "max(1, 2**3)" =
  Scanned [{| t := Str "max"; pos := 0 |}; {| t := Lparen; pos := 3 |};
           {| t := Number 1; pos := 4 |}; {| t := Comma; pos := 5 |};
           {| t := Number 2; pos := 7 |}; {| t := Power; pos := 8 |};
           {| t := Number 3; pos := 10 |}; {| t := Rparen; pos := 11 |};
           {| t := End; pos := 0 |}].
Proof. reflexivity. Qed.
Example scan_ex3 : scan "123.45.3" = ScanPanic.
Proof. reflexivity. Qed.

(** ** AST (src/src/ast.rs) *)

Open Scope nat_scope.

(** [ast::TokenType] *)
Inductive TokenType :=
| ANumber (n : float)
| APlus | AMinus | AMultiply | ADivide | ABar | AFactorial | AModulo
| APrefixMinus | APrefixPlus.

(** [Node { token, left, right }] with [NodePtr = Option<Box<Node>>]. *)
Inductive Node := Build_Node { token : TokenType; left : option Node; right : option Node }.

Definition NodePtr := option Node.

Definition new_ptr (k : TokenType) (l r : NodePtr) : NodePtr := Some (Build_Node k l r).

(** The [format!] sites of the parser, one constructor each. *)
Inductive ErrMsg :=
| OperandExpected (op : STokenType) (op_pos : nat)
    (* "Operator {:?} at pos {} expects an operand, but gets End!" *)
| EmptyExpression
    (* "Empty expression!" *)
| UnknownError (prev_t : STokenType) (prev_pos : nat) (last_t : STokenType) (last_pos : nat)
    (* "Unkown error! Prev token {:?} at pos {}, last token {:?} at pos {}" *)
| RParenNotFound (lparen_pos : nat)
    (* "Expected RParen is not found! LParen pos = {}" *)
| BarNotFound (bar_pos : nat)
    (* "Expected Bar is not found! First Bar  pos = {}" *)
| UnknownPrefix (op : STokenType) (op_pos : nat)
    (* "Unknown prefix operator {:?} at pos {}!" *)
| UnknownTokenLhs (tok : Token)
    (* "Unknown token! {:?}" *)
| UnknownTokenAt (tk : STokenType) (tk_pos : nat).
    (* "Unkown token {:?} at pos {}!" *)

(** Outcome of a parser step or of [evaluate]. *)
Inductive Res (A : Type) :=
| Ok (a : A)
| Err (e : ErrMsg)
| Panic (msg : string)
| OutOfFuel.
Arguments Ok {A}. Arguments Err {A}. Arguments Panic {A}. Arguments OutOfFuel {A}.

Definition infix_binding_power (tk : STokenType) : option (nat * nat) :=
  match tk with
  | Plus | Minus => Some (1, 2)
  | Multiplication | Division | Modulo => Some (3, 4)
  | _ => None
  end.

Definition prefix_binding_power (tk : STokenType) : option nat :=
  match tk with
  | Plus | Minus => Some 5
  | _ => None
  end.

Definition postfix_binding_power (tk : STokenType) : option nat :=
  match tk with
  | Factorial => Some 7
  | _ => None
  end.

Definition is_operator (tk : STokenType) : bool :=
  match tk with
  | Minus | Modulo | Plus | Multiplication | Division | Factorial => true
  | _ => false
  end.

Definition is_end (tk : STokenType) : bool :=
  match tk with End => true | _ => false end.
Definition is_none (tk : STokenType) : bool :=
  match tk with None_ => true | _ => false end.
Definition is_rparen (tk : STokenType) : bool :=
  match tk with Rparen => true | _ => false end.
Definition is_bar (tk : STokenType) : bool :=
  match tk with Bar => true | _ => false end.

Definition scanner_token_to_ast_token (tok : Token) : Res TokenType :=
  match t tok with
  | Number n => Ok (ANumber n)
  | Plus => Ok APlus
  | Minus => Ok AMinus
  | Multiplication => Ok AMultiply
  | Division => Ok ADivide
  | Factorial => Ok AFactorial
  | Bar => Ok ABar
  | Modulo => Ok AModulo
  | _ => Panic "CAN'T CONVERT THIS TOKEN!"
  end.

Definition scanner_token_to_prefix_token (tok : Token) : Res TokenType :=
  match t tok with
  | Plus => Ok APrefixPlus
  | Minus => Ok APrefixMinus
  | _ => Panic "Unkown prefix token!"
  end.

Definition log_error (prev_token token : Token) : Res NodePtr :=
  if is_operator (t prev_token) && is_end (t token) then
    Err (OperandExpected (t prev_token) (pos prev_token))
  else if is_none (t prev_token) && is_end (t token) then
    Err EmptyExpression
  else Err (UnknownError (t prev_token) (pos prev_token) (t token) (pos token)).

(** *** The scanner's cursor ([Scanner::next], [Scanner::peek]) *)

Definition end_token : Token := {| t := End; pos := 0 |}.

Definition peek (tokens : list Token) (iter_index : nat) : Token :=
  if (List.length tokens <=? iter_index)%nat then end_token
  else nth iter_index tokens end_token.

Definition next (tokens : list Token) (iter_index : nat) : Token * nat :=
  if (List.length tokens <=? iter_index)%nat then (end_token, iter_index)
  else (nth iter_index tokens end_token, S iter_index).

(** *** The parser: a state (cursor) and error monad over a fixed token vector *)

Section Parser.

Variable tokens : list Token.

Definition PM (A : Type) := nat -> Res (A * nat).

Definition ret {A} (a : A) : PM A := fun i => Ok (a, i).
Definition bind {A B} (m : PM A) (k : A -> PM B) : PM B :=
  fun i => match m i with
           | Ok (a, i') => k a i'
           | Err e => Err e
           | Panic m => Panic m
           | OutOfFuel => OutOfFuel
           end.
Definition lift {A} (r : Res A) : PM A :=
  fun i => match r with
           | Ok a => Ok (a, i)
           | Err e => Err e
           | Panic m => Panic m
           | OutOfFuel => OutOfFuel
           end.
Definition out_of_fuel {A} : PM A := fun _ => OutOfFuel.

Definition pnext : PM Token := fun i => Ok (next tokens i).
Definition ppeek : PM Token := fun i => Ok (peek tokens i, i).

Notation "'let*' x ':=' m 'in' k" := (bind m (fun x => k))
  (at level 200, x name, m at level 100, k at level 200).

Fixpoint parse_lhs (fuel : nat) (prev_token : Token) : PM NodePtr :=
  match fuel with
  | O => out_of_fuel
  | S f =>
    let* token := pnext in
    match t token with
    | Number n => ret (new_ptr (ANumber n) None None)
    | Lparen =>
        let* lhs := parse_expr f 0 token in
        let* nxt := pnext in
        if negb (is_rparen (t nxt)) then lift (Err (RParenNotFound (pos token)))
        else ret lhs
    | Bar =>
        let* inner := parse_expr f 0 token in
        let lhs := new_ptr ABar inner None in
        let* nxt := pnext in
        if negb (is_bar (t nxt)) then lift (Err (BarNotFound (pos token)))
        else ret lhs
    | End => lift (log_error prev_token token)
    | _ =>
        if is_operator (t token) then
          match prefix_binding_power (t token) with
          | Some r_bp =>
              let* rhs := parse_expr f r_bp token in
              let* k := lift (scanner_token_to_prefix_token token) in
              ret (new_ptr k rhs None)
          | None => lift (Err (UnknownPrefix (t token) (pos token)))
          end
        else lift (Err (UnknownTokenLhs token))
    end
  end

with parse_expr (fuel : nat) (min_bp : nat) (prev_token : Token) : PM NodePtr :=
  match fuel with
  | O => out_of_fuel
  | S f =>
    let* lhs := parse_lhs f prev_token in
    expr_loop f min_bp lhs
  end

(** The [loop] of [parse_expr], with the accumulated [lhs]. *)
with expr_loop (fuel : nat) (min_bp : nat) (lhs : NodePtr) : PM NodePtr :=
  match fuel with
  | O => out_of_fuel
  | S f =>
    let* token := ppeek in
    if is_operator (t token) || is_rparen (t token) || is_bar (t token) then
      match postfix_binding_power (t token) with
      | Some l_bp =>
          if l_bp <? min_bp then ret lhs
          else
            let* _ := pnext in
            let* token_type := lift (scanner_token_to_ast_token token) in
            expr_loop f min_bp (new_ptr token_type lhs None)
      | None =>
          match infix_binding_power (t token) with
          | Some (l_bp, r_bp) =>
              if l_bp <? min_bp then ret lhs
              else
                let* _ := pnext in
                let* token_type := lift (scanner_token_to_ast_token token) in
                let* rhs := parse_expr f r_bp token in
                expr_loop f min_bp (new_ptr token_type lhs rhs)
          | None => ret lhs
          end
      end
    else if is_end (t token) then ret lhs
    else lift (Err (UnknownTokenAt (t token) (pos token)))
  end.

(** [Ast::build]: the root, parsed from cursor 0 with the [None] token as
    predecessor. *)
Definition build : Res NodePtr :=
  match parse_expr (3 * List.length tokens + 3) 0 {| t := None_; pos := 0 |} 0 with
  | Ok (root, _) => Ok root
  | Err e => Err e
  | Panic m => Panic m
  | OutOfFuel => OutOfFuel
  end.

End Parser.

(** ** Evaluator (src/src/evaluator.rs) *)

Open Scope float_scope.

Definition factorial (n : float) : float :=
  fold_left (fun f i => f * u64_to_f64 i)
    (map Z.of_nat (seq 2 (Z.to_nat (f64_to_u64 n) - 1))) 1.

(** [recursion], on a present node; [recursion] below adds the [None => 0.]
    arm. The [_ => panic!("Unknown token!")] arm of the source is not
    written: the ten arms cover every [ast::TokenType]. *)
Fixpoint recursion_node (node : Node) : float :=
  let recursion (p : NodePtr) :=
    match p with Some c => recursion_node c | None => 0 end in
  match node with
  | Build_Node tk l r =>
      match tk with
      | AModulo => f64_rem (recursion l) (recursion r)
      | APrefixMinus => - recursion l
      | APrefixPlus => recursion l
      | APlus => recursion l + recursion r
      | AMinus => recursion l - recursion r
      | AFactorial => factorial (recursion l)
      | ABar => abs (recursion l)
      | AMultiply => recursion l * recursion r
      | ADivide => recursion l / recursion r
      | ANumber n => n
      end
  end.

Definition recursion (node : NodePtr) : float :=
  match node with
  | Some n => recursion_node n
  | None => 0
  end.

Close Scope float_scope.

(** [evaluate]: an [Err e] stands for the message
    ["Ast build error! " ++ render e]. *)
Definition evaluate (expr : string) : Res float :=
  match scan expr with
  | ScanPanic => Panic "Wrong format number!"
  | ScanOutOfFuel => OutOfFuel
  | Scanned tokens =>
      match build tokens with
      | Ok root => Ok (recursion root)
      | Err e => Err e
      | Panic m => Panic m
      | OutOfFuel => OutOfFuel
      end
  end.

(** ** Error messages: the text of each [format!] site. Rust's [{:?}] of an
    [f64] is left as the parameter [show_num]. *)

Fixpoint string_of_nat_aux (fuel n : nat) (acc : string) : string :=
  match fuel with
  | O => acc
  | S f =>
      let acc' := String (ascii_of_nat (48 + n mod 10)) acc in
      if n <? 10 then acc' else string_of_nat_aux f (n / 10) acc'
  end.

Definition string_of_nat (n : nat) : string := string_of_nat_aux (S n) n "".

Definition dquote : string := String (ascii_of_nat 34) EmptyString.

Section Render.

Variable show_num : float -> string.

(** [{:?}] of a [scanner::TokenType] *)
Definition debug_stoken (tk : STokenType) : string :=
  match tk with
  | Number n => "Number(" ++ show_num n ++ ")"
  | Str s => "Str(" ++ dquote ++ s ++ dquote ++ ")"
  | Plus => "Plus" | Minus => "Minus" | Multiplication => "Multiplication"
  | Division => "Division" | Modulo => "Modulo" | Power => "Power"
  | Factorial => "Factorial" | Comma => "Comma" | Lparen => "Lparen"
  | Rparen => "Rparen" | Equals => "Equals" | Bar => "Bar"
  | End => "End" | None_ => "None"
  end.

(** [{:?}] of a [Token] *)
Definition debug_token (tok : Token) : string :=
  "Token { t: " ++ debug_stoken (t tok) ++ ", pos: " ++ string_of_nat (pos tok) ++ " }".

Definition render_err (e : ErrMsg) : string :=
  match e with
  | OperandExpected op p =>
      "Operator " ++ debug_stoken op ++ " at pos " ++ string_of_nat p
        ++ " expects an operand, but gets End!"
  | EmptyExpression => "Empty expression!"
  | UnknownError pt pp lt lp =>
      "Unkown error! Prev token " ++ debug_stoken pt ++ " at pos " ++ string_of_nat pp
        ++ ", last token " ++ debug_stoken lt ++ " at pos " ++ string_of_nat lp
  | RParenNotFound p => "Expected RParen is not found! LParen pos = " ++ string_of_nat p
  | BarNotFound p => "Expected Bar is not found! First Bar  pos = " ++ string_of_nat p
  | UnknownPrefix op p =>
      "Unknown prefix operator " ++ debug_stoken op ++ " at pos " ++ string_of_nat p ++ "!"
  | UnknownTokenLhs tok => "Unknown token! " ++ debug_token tok
  | UnknownTokenAt tk p =>
      "Unkown token " ++ debug_stoken tk ++ " at pos " ++ string_of_nat p ++ "!"
  end.

(** The message [evaluate] returns in its [Err]. *)
Definition evaluate_err_msg (e : ErrMsg) : string := "Ast build error! " ++ render_err e.

End Render.

(** ** The repository's own tests, run on the model *)

Definition evaluates_to (s : string) (v : float) : Prop := evaluate s = Ok v.

Example evaluator_tests_model :
  evaluates_to "1 + 2" 3 /\ evaluates_to "2 / 2 * 3 + 4 * 5" 23 /\
  evaluates_to "2 + 6 / 2 * 3 + 4 * 5" 31 /\
  evaluates_to "(1 + 2) * 3" 9 /\ evaluates_to "(1 + 2!) / 3" 1 /\
  evaluates_to "(1 * 2) * (5 + 1)" 12 /\ evaluates_to "((2 + 3) * 2) * (5 + 1)" 60 /\
  evaluates_to "-(1 + 3)" (-4) /\ evaluates_to "(2 + 1)!" 6 /\
  evaluates_to "(1 + 3)! * 2" 48 /\ evaluates_to "((3 - 2) * 2)! * 1.0" 2 /\
  evaluates_to "3!" 6 /\ evaluates_to "-3!" (-6) /\ evaluates_to "-3! / 3" (-2) /\
  evaluates_to "-3 * 1 * -1" 3 /\ evaluates_to "3! * 3" 18 /\
  evaluates_to "2 + 3! * 3" 20 /\ evaluates_to "10 - 2! + 3!" 14 /\
  evaluates_to "3! * 3!" 36 /\
  evaluates_to "-1" (-1) /\ evaluates_to "2 + -1" 1 /\ evaluates_to "2 + -1 / 2." 1.5 /\
  evaluates_to "+2 + +3" 5 /\ evaluates_to "-1 * 8" (-8) /\
  evaluates_to "-3 + 1 * 3 / 3" (-2) /\
  evaluates_to "|-3|" 3 /\ evaluates_to "|-3 * 1 * -1|" 3 /\ evaluates_to "|-2| + 2" 4 /\
  evaluates_to "2 / (|-2| + 2)" 0.5 /\ evaluates_to "|(4 - 6)| * 2" 4 /\
  evaluates_to "4 % 2" 0 /\ evaluates_to "4 % 3" 1 /\ evaluates_to "(4 + 2) % 3" 0 /\
  evaluates_to "(5 + 2) % 9" 7.
Proof. unfold evaluates_to; repeat split; vm_compute; reflexivity. Qed.

Example ast_error_msg_tests_model :
  forall show : float -> string,
  (match scan "1 + 2 - " with Scanned tk => build tk | _ => OutOfFuel end)
    = Err (OperandExpected Minus 6) /\
  render_err show (OperandExpected Minus 6)
    = "Operator Minus at pos 6 expects an operand, but gets End!" /\
  (match scan "+" with Scanned tk => build tk | _ => OutOfFuel end)
    = Err (OperandExpected Plus 0).
Proof. intros show; repeat split; vm_compute; reflexivity. Qed.

(** ** Helpers for the statements *)

(** [Scanner::scan] followed by [Ast::build], on a text. *)
Definition parse_text (s : string) : Res NodePtr :=
  match scan s with
  | Scanned tokens => build tokens
  | ScanPanic => Panic "Wrong format number!"
  | ScanOutOfFuel => OutOfFuel
  end.

Definition leaf (n : float) : Node := Build_Node (ANumber n) None None.
Definition bin (k : TokenType) (l r : Node) : Node := Build_Node k (Some l) (Some r).

(** "2·3·…·n", as the spec words it: the product of the integers from 2 to
    n in f64 arithmetic, with 1 for n = 0 and n = 1. *)
Fixpoint iterative_product (n : nat) : float :=
  match n with
  | O => 1%float
  | S O => 1%float
  | S m => (iterative_product m * u64_to_f64 (Z.of_nat (S m)))%float
  end.

Lemma fold_range_iterative_product (k : nat) :
  fold_left (fun f i => (f * u64_to_f64 i)%float) (map Z.of_nat (seq 2 (k - 1))) 1%float
  = iterative_product k.
Proof.
  induction k as [|k IH]; [reflexivity|].
  destruct k as [|k]; [reflexivity|].
  replace (S (S k) - 1) with (S k) by lia.
  rewrite seq_S, map_app, fold_left_app.
  replace (S k - 1) with k in IH by lia.
  rewrite IH. cbn [fold_left map iterative_product].
  replace (Z.of_nat (2 + k)) with (Z.of_nat (S (S k))) by (f_equal; lia).
  reflexivity.
Qed.

(** n! in Z. *)
Fixpoint z_fact (n : nat) : Z :=
  match n with
  | O => 1%Z
  | S m => (Z.of_nat (S m) * z_fact m)%Z
  end.

Lemma z_fact_fact (n : nat) : Z.of_nat (fact n) = z_fact n.
Proof.
  induction n as [|n IH]; simpl fact; cbn [z_fact]; [reflexivity|].
  rewrite Nat2Z.inj_succ, Nat2Z.inj_add, Nat2Z.inj_mul, IH. ring.
Qed.

(** ** Claims *)

(** C1 (as stated, refuted): the spec's first precedence example says
    [evaluate("2 * 3 + 4 * 5") == 23]; the program returns 26. *)
Lemma C1_counterexample : evaluate "2 * 3 + 4 * 5" <> Ok 23%float.
Proof. vm_compute. congruence. Qed.

(** C1 (amended): with the infix binding powers +/- (1, 2) and * / % (3, 4),
    "2 * 3 + 4 * 5" parses as (2*3)+(4*5) and evaluates to 26,
    "2 / 2 * 3 + 4 * 5" evaluates to 23, "2 + 3! * 3" to 20, and
    "1 + 2 - 4" parses as (1+2)-4 and evaluates to -1. *)
Theorem C1_precedence_assoc :
  infix_binding_power Plus = Some (1, 2) /\ infix_binding_power Minus = Some (1, 2) /\
  infix_binding_power Multiplication = Some (3, 4) /\
  infix_binding_power Division = Some (3, 4) /\ infix_binding_power Modulo = Some (3, 4) /\
  parse_text "2 * 3 + 4 * 5"
    = Ok (Some (bin APlus (bin AMultiply (leaf 2) (leaf 3)) (bin AMultiply (leaf 4) (leaf 5)))) /\
  evaluate "2 * 3 + 4 * 5" = Ok 26%float /\
  evaluate "2 / 2 * 3 + 4 * 5" = Ok 23%float /\
  evaluate "2 + 3! * 3" = Ok 20%float /\
  parse_text "1 + 2 - 4"
    = Ok (Some (bin AMinus (bin APlus (leaf 1) (leaf 2)) (leaf 4))) /\
  evaluate "1 + 2 - 4" = Ok (-1)%float.
Proof. repeat split; vm_compute; reflexivity. Qed.

(** C2: a Factorial node evaluates its operand, truncates it to an unsigned
    integer n ([as u64]) and returns the iterative product 2·3·…·n; the
    factorial of 0 and of 1 is 1, the product is exactly n! up to n = 22,
    and evaluate("3!") = evaluate("(2 + 1)!") = Ok(6). *)
Theorem C2_factorial :
  (forall l r, recursion_node (Build_Node AFactorial l r) = factorial (recursion l)) /\
  (forall x, factorial x = iterative_product (Z.to_nat (f64_to_u64 x))) /\
  factorial 0 = 1%float /\ factorial 1 = 1%float /\
  factorial 3.5 = 6%float /\
  Forall (fun n => iterative_product n = u64_to_f64 (Z.of_nat (fact n))) (seq 0 23) /\
  evaluate "3!" = Ok 6%float /\ evaluate "(2 + 1)!" = Ok 6%float.
Proof.
  split; [reflexivity|].
  split; [intros x; apply fold_range_iterative_product|].
  assert (Hex : Forall (fun n => iterative_product n = u64_to_f64 (z_fact n)) (seq 0 23))
    by (repeat constructor; vm_compute; reflexivity).
  repeat split; try (vm_compute; reflexivity).
  eapply Forall_impl; [|exact Hex]; intros n Hn; rewrite z_fact_fact; exact Hn.
Qed.

(** C3: PrefixMinus negates its operand, PrefixPlus is the identity, Bar
    takes the absolute value; evaluate("|-3|") = Ok(3),
    evaluate("|(4 - 6)| * 2") = Ok(4), evaluate("-1 + 2") = Ok(1). *)
Theorem C3_unary_ops :
  (forall l r, recursion_node (Build_Node APrefixMinus l r) = (- recursion l)%float) /\
  (forall l r, recursion_node (Build_Node APrefixPlus l r) = recursion l) /\
  (forall l r, recursion_node (Build_Node ABar l r) = abs (recursion l)) /\
  evaluate "|-3|" = Ok 3%float /\ evaluate "|(4 - 6)| * 2" = Ok 4%float /\
  evaluate "-1 + 2" = Ok 1%float.
Proof. repeat split; vm_compute; reflexivity. Qed.

(** C4: at end of input where an operand is expected, the error depends on
    the token before: an operator gives "Operator X at pos P expects an
    operand", the initial [None] marker (nothing consumed) gives "Empty
    expression!", anything else a generic positional error;
    evaluate("1 + ") cites Plus at pos 2 and evaluate("") is the empty
    expression error. *)
Theorem C4_end_of_input_errors :
  evaluate "1 + " = Err (OperandExpected Plus 2) /\
  (forall show, evaluate_err_msg show (OperandExpected Plus 2)
     = "Ast build error! Operator Plus at pos 2 expects an operand, but gets End!") /\
  evaluate "" = Err EmptyExpression /\
  (forall show, evaluate_err_msg show EmptyExpression = "Ast build error! Empty expression!") /\
  (forall tokens, t (fst (next tokens 0)) = End -> build tokens = Err EmptyExpression) /\
  (forall tokens fuel prev i, t (fst (next tokens i)) = End ->
     parse_lhs tokens (S fuel) prev i =
       Err (if is_operator (t prev) then OperandExpected (t prev) (pos prev)
            else if is_none (t prev) then EmptyExpression
            else UnknownError (t prev) (pos prev) End (pos (fst (next tokens i))))).
Proof.
  split; [vm_compute; reflexivity|].
  split; [reflexivity|].
  split; [vm_compute; reflexivity|].
  split; [reflexivity|].
  split.
  - intros tokens H. unfold build.
    replace (3 * List.length tokens + 3) with (S (S (3 * List.length tokens + 1))) by lia.
    cbn [parse_expr parse_lhs]. unfold bind at 1 2, pnext.
    destruct (next tokens 0) as [tok i1]. simpl in H. rewrite H.
    unfold lift, log_error. rewrite H. reflexivity.
  - intros tokens fuel prev i H. cbn [parse_lhs]. unfold bind at 1, pnext.
    destruct (next tokens i) as [tok i1]. simpl in H |- *. rewrite H.
    unfold lift, log_error. rewrite H. simpl.
    destruct (is_operator (t prev)); [reflexivity|].
    destruct (is_none (t prev)); reflexivity.
Qed.

(** C5: after a parenthesised (bar-delimited) sub-expression parsed without
    error, a following token other than Rparen (Bar) makes [parse_lhs]
    return [Err] naming the position of the opening Lparen (Bar);
    evaluate("(1 + 2") and evaluate("|1 + 2") are such errors at pos 0. *)
Theorem C5_unmatched_delimiters :
  (forall tokens fuel prev i lhs i2,
     t (fst (next tokens i)) = Lparen ->
     parse_expr tokens fuel 0 (fst (next tokens i)) (snd (next tokens i)) = Ok (lhs, i2) ->
     is_rparen (t (fst (next tokens i2))) = false ->
     parse_lhs tokens (S fuel) prev i = Err (RParenNotFound (pos (fst (next tokens i))))) /\
  (forall tokens fuel prev i inner i2,
     t (fst (next tokens i)) = Bar ->
     parse_expr tokens fuel 0 (fst (next tokens i)) (snd (next tokens i)) = Ok (inner, i2) ->
     is_bar (t (fst (next tokens i2))) = false ->
     parse_lhs tokens (S fuel) prev i = Err (BarNotFound (pos (fst (next tokens i))))) /\
  evaluate "(1 + 2" = Err (RParenNotFound 0) /\
  (forall show, evaluate_err_msg show (RParenNotFound 0)
     = "Ast build error! Expected RParen is not found! LParen pos = 0") /\
  evaluate "|1 + 2" = Err (BarNotFound 0) /\
  (forall show, evaluate_err_msg show (BarNotFound 0)
     = "Ast build error! Expected Bar is not found! First Bar  pos = 0").
Proof.
  split; [|split]; [| |repeat split; vm_compute; reflexivity].
  - intros tokens fuel prev i lhs i2 Ht Hp Hr. cbn [parse_lhs]. unfold bind at 1, pnext.
    destruct (next tokens i) as [tok i1]. simpl in Ht, Hp |- *. rewrite Ht.
    unfold bind at 1. rewrite Hp. unfold bind, pnext.
    destruct (next tokens i2) as [nxt i3]. simpl in Hr |- *. rewrite Hr. reflexivity.
  - intros tokens fuel prev i inner i2 Ht Hp Hr. cbn [parse_lhs]. unfold bind at 1, pnext.
    destruct (next tokens i) as [tok i1]. simpl in Ht, Hp |- *. rewrite Ht.
    unfold bind at 1. rewrite Hp. unfold bind, pnext.
    destruct (next tokens i2) as [nxt i3]. simpl in Hr |- *. rewrite Hr. reflexivity.
Qed.

(** C9: the loop of [parse_expr] stops, without consuming it, at a peeked
    Rparen or Bar, and [build] keeps what was parsed without looking at
    the rest; evaluate("1)") and evaluate("1|") both return Ok(1). *)
Theorem C9_stray_closer_accepted :
  (forall tokens fuel min_bp lhs i,
     is_rparen (t (peek tokens i)) || is_bar (t (peek tokens i)) = true ->
     expr_loop tokens (S fuel) min_bp lhs i = Ok (lhs, i)) /\
  (forall tokens root i,
     parse_expr tokens (3 * List.length tokens + 3) 0 {| t := None_; pos := 0 |} 0
       = Ok (root, i) -> build tokens = Ok root) /\
  evaluate "1)" = Ok 1%float /\ evaluate "1|" = Ok 1%float /\
  parse_text "1)" = Ok (Some (leaf 1)) /\ parse_text "1|" = Ok (Some (leaf 1)).
Proof.
  split; [|split]; [| |repeat split; vm_compute; reflexivity].
  - intros tokens fuel min_bp lhs i H. cbn [expr_loop]. unfold bind at 1, ppeek.
    destruct (peek tokens i) as [tk p]. simpl in H |- *.
    destruct tk; try discriminate H; reflexivity.
  - intros tokens root i H. unfold build. rewrite H. reflexivity.
Qed.

(** C10 (as stated, refuted): an input with '^' between two operands on
    which [evaluate] does not return [Err]: the '^' follows a stray ')'
    and is never reached. *)
Lemma C10_counterexample : evaluate "1)2^3" = Ok 1%float.
Proof. vm_compute. reflexivity. Qed.

(** C10 (amended): Power has no prefix, infix or postfix binding power and
    is not an operator; whenever the parser reaches a Power token, as the
    operand read by [parse_lhs] or as the token peeked by the loop, it
    returns [Err] (an unknown-token error); so evaluate("2^3") and
    evaluate("2**3") return Err (Power at pos 1), and no AST node kind
    stands for a power. *)
Theorem C10_power_rejected :
  prefix_binding_power Power = None /\ infix_binding_power Power = None /\
  postfix_binding_power Power = None /\ is_operator Power = false /\
  (forall tokens fuel prev i, t (fst (next tokens i)) = Power ->
     parse_lhs tokens (S fuel) prev i = Err (UnknownTokenLhs (fst (next tokens i)))) /\
  (forall tokens fuel min_bp lhs i, t (peek tokens i) = Power ->
     expr_loop tokens (S fuel) min_bp lhs i = Err (UnknownTokenAt Power (pos (peek tokens i)))) /\
  evaluate "2^3" = Err (UnknownTokenAt Power 1) /\
  evaluate "2**3" = Err (UnknownTokenAt Power 1).
Proof.
  do 4 (split; [reflexivity|]).
  split; [|split]; [| |split; vm_compute; reflexivity].
  - intros tokens fuel prev i H. cbn [parse_lhs]. unfold bind at 1, pnext.
    destruct (next tokens i) as [tok i1]. simpl in H |- *. rewrite H. reflexivity.
  - intros tokens fuel min_bp lhs i H. cbn [expr_loop]. unfold bind at 1, ppeek.
    destruct (peek tokens i) as [tk p]. simpl in H |- *. rewrite H. reflexivity.
Qed.

(** ** Scanner invariants *)

Definition plain_token (tk : Token) : bool := negb (is_end (t tk)) && negb (is_none (t tk)).

Lemma scan_loop_shape (fuel : nat) :
  forall expr it acc tokens,
  forallb plain_token acc = true ->
  scan_loop fuel expr it acc = Scanned tokens ->
  exists pre, tokens = (pre ++ [end_token])%list /\ forallb plain_token pre = true.
Proof.
  induction fuel as [|fuel IH]; intros expr it acc tokens Hacc H; [discriminate H|].
  cbn [scan_loop] in H.
  destruct (get_next_token expr it) as [[token it']|]; [|discriminate H].
  destruct (t token) eqn:Et;
    try (apply (IH expr it' (acc ++ [token])%list); [|exact H];
         rewrite forallb_app, Hacc; unfold plain_token; simpl; rewrite Et; reflexivity).
  - cbn beta iota in H. injection H as <-. exists acc. split; [reflexivity|exact Hacc].
  - exact (IH expr it' acc tokens Hacc H).
Qed.

Lemma filter_plain_end (pre : list Token) :
  forallb plain_token pre = true -> filter (fun tk => is_end (t tk)) pre = [].
Proof.
  induction pre as [|tk pre IH]; simpl; [reflexivity|].
  intros H. apply andb_prop in H as [H1 H2].
  unfold plain_token in H1. destruct (is_end (t tk)); [discriminate H1|]. auto.
Qed.

Lemma forallb_plain_none (pre : list Token) :
  forallb plain_token pre = true -> forallb (fun tk => negb (is_none (t tk))) pre = true.
Proof.
  induction pre as [|tk pre IH]; simpl; [reflexivity|].
  intros H. apply andb_prop in H as [H1 H2].
  unfold plain_token in H1. apply andb_prop in H1 as [_ H1]. rewrite H1. auto.
Qed.

(** The cursor after [k] calls of [Scanner::next]. *)
Definition advance (tokens : list Token) (i : nat) : nat := snd (next tokens i).

Lemma iter_advance (tokens : list Token) (k : nat) :
  Nat.iter k (advance tokens) 0 = Nat.min k (List.length tokens).
Proof.
  induction k as [|k IH]; [reflexivity|].
  change (Nat.iter (S k) (advance tokens) 0) with (advance tokens (Nat.iter k (advance tokens) 0)).
  rewrite IH. unfold advance, next.
  destruct (Nat.leb_spec (List.length tokens) (Nat.min k (List.length tokens))); cbn [snd]; lia.
Qed.

(** C7: every token vector that [scan] produces ends with the one End
    token it contains, and contains no None token. *)
Theorem C7_scan_end_sentinel (s : string) (tokens : list Token) :
  scan s = Scanned tokens ->
  (exists pre, tokens = (pre ++ [{| t := End; pos := 0 |}])%list) /\
  List.length (filter (fun tk => is_end (t tk)) tokens) = 1 /\
  forallb (fun tk => negb (is_none (t tk))) tokens = true.
Proof.
  intros H. unfold scan in H.
  destruct (scan_loop_shape _ _ _ [] tokens eq_refl H) as (pre & -> & Hpre).
  split; [exists pre; reflexivity|]. split.
  - rewrite filter_app, (filter_plain_end pre Hpre). reflexivity.
  - rewrite forallb_app, (forallb_plain_none pre Hpre). reflexivity.
Qed.

Lemma C7_witness :
  scan "max(1, 2)!" = Scanned
    [{| t := Str "max"; pos := 0 |}; {| t := Lparen; pos := 3 |};
     {| t := Number 1; pos := 4 |}; {| t := Comma; pos := 5 |};
     {| t := Number 2; pos := 7 |}; {| t := Rparen; pos := 8 |};
     {| t := Factorial; pos := 9 |}; end_token] /\
  List.length (filter (fun tk => is_end (t tk))
    [{| t := Str "max"; pos := 0 |}; {| t := Lparen; pos := 3 |};
     {| t := Number 1; pos := 4 |}; {| t := Comma; pos := 5 |};
     {| t := Number 2; pos := 7 |}; {| t := Rparen; pos := 8 |};
     {| t := Factorial; pos := 9 |}; end_token]) = 1.
Proof.
  assert (H : scan "max(1, 2)!" = Scanned
    [{| t := Str "max"; pos := 0 |}; {| t := Lparen; pos := 3 |};
     {| t := Number 1; pos := 4 |}; {| t := Comma; pos := 5 |};
     {| t := Number 2; pos := 7 |}; {| t := Rparen; pos := 8 |};
     {| t := Factorial; pos := 9 |}; end_token]) by (vm_compute; reflexivity).
  split; [exact H|].
  exact (proj1 (proj2 (C7_scan_end_sentinel _ _ H))).
Defined.

(** C8: on a token vector of length [n] (in particular one from [scan]),
    after [k >= n] calls of [next] from the start, both [peek] and [next]
    return an End token. *)
Theorem C8_past_end_is_end (tokens : list Token) (k : nat) :
  List.length tokens <= k ->
  t (peek tokens (Nat.iter k (advance tokens) 0)) = End /\
  t (fst (next tokens (Nat.iter k (advance tokens) 0))) = End.
Proof.
  intros Hk. rewrite iter_advance.
  replace (Nat.min k (List.length tokens)) with (List.length tokens) by lia.
  unfold peek, next. rewrite Nat.leb_refl. split; reflexivity.
Qed.

Lemma C8_witness :
  List.length [{| t := Number 1; pos := 0 |}; end_token] <= 5 /\
  t (peek [{| t := Number 1; pos := 0 |}; end_token]
       (Nat.iter 5 (advance [{| t := Number 1; pos := 0 |}; end_token]) 0)) = End.
Proof.
  split; [simpl; lia|].
  exact (proj1 (C8_past_end_is_end [{| t := Number 1; pos := 0 |}; end_token] 5
                  ltac:(simpl; lia))).
Defined.

(** ** Shape of the trees the parser builds *)

(** Required children present, unused ones absent: Number is a leaf, the
    five binary kinds have both children, PrefixPlus, PrefixMinus,
    Factorial and Bar have only [left]. *)
Fixpoint wf_node (n : Node) : bool :=
  let present (p : NodePtr) := match p with Some c => wf_node c | None => false end in
  let absent (p : NodePtr) := match p with Some _ => false | None => true end in
  match n with
  | Build_Node tk l r =>
      match tk with
      | ANumber _ => absent l && absent r
      | APlus | AMinus | AMultiply | ADivide | AModulo => present l && present r
      | APrefixPlus | APrefixMinus | AFactorial | ABar => present l && absent r
      end
  end.

Definition wf_ptr (p : NodePtr) : bool :=
  match p with Some n => wf_node n | None => false end.

Lemma bind_Ok {A B} (m : PM A) (k : A -> PM B) (i : nat) (x : B) (i' : nat) :
  bind m k i = Ok (x, i') -> exists a i1, m i = Ok (a, i1) /\ k a i1 = Ok (x, i').
Proof.
  unfold bind. destruct (m i) as [[a i1]| | |]; intros H; try discriminate H. eauto.
Qed.

Lemma lift_Ok {A} (r : Res A) (i : nat) (x : A) (i' : nat) :
  lift r i = Ok (x, i') -> r = Ok x.
Proof. unfold lift. destruct r; intros H; try discriminate H. congruence. Qed.

Lemma ret_Ok {A} (a : A) (i : nat) (x : A) (i' : nat) :
  ret a i = Ok (x, i') -> x = a.
Proof. unfold ret. congruence. Qed.

Lemma log_error_not_Ok (prev tok : Token) (x : NodePtr) : log_error prev tok <> Ok x.
Proof.
  unfold log_error.
  destruct (is_operator (t prev) && is_end (t tok)); [discriminate|].
  destruct (is_none (t prev) && is_end (t tok)); discriminate.
Qed.

Ltac red_parse H :=
  cbn beta iota delta [is_operator prefix_binding_power postfix_binding_power
    infix_binding_power is_rparen is_bar is_end negb orb andb] in H.

Section ParserShape.

Variable tokens : list Token.

Lemma parser_wf (fuel : nat) :
  (forall prev i x i', parse_lhs tokens fuel prev i = Ok (x, i') -> wf_ptr x = true) /\
  (forall mb prev i x i', parse_expr tokens fuel mb prev i = Ok (x, i') -> wf_ptr x = true) /\
  (forall mb lhs i x i', wf_ptr lhs = true ->
     expr_loop tokens fuel mb lhs i = Ok (x, i') -> wf_ptr x = true).
Proof.
  induction fuel as [|f [IHl [IHe IHloop]]].
  { split; [|split]; intros; discriminate. }
  split; [|split].
  - (* parse_lhs *)
    intros prev i x i' H. cbn [parse_lhs] in H.
    apply bind_Ok in H as (tok & i1 & _ & H).
    revert H; destruct (t tok) eqn:Et; intros H; red_parse H.
    + apply ret_Ok in H. subst x. reflexivity.
    + apply lift_Ok in H. discriminate H.
    + (* prefix plus *)
      apply bind_Ok in H as (rhs & i2 & Hr & H).
      apply bind_Ok in H as (k & i3 & Hk & H).
      apply lift_Ok in Hk. unfold scanner_token_to_prefix_token in Hk. rewrite Et in Hk.
      injection Hk as <-. apply ret_Ok in H. subst x.
      pose proof (IHe _ _ _ _ _ Hr) as Hw.
      destruct rhs as [c|]; [|discriminate Hw]. cbn in *. rewrite Hw. reflexivity.
    + (* prefix minus *)
      apply bind_Ok in H as (rhs & i2 & Hr & H).
      apply bind_Ok in H as (k & i3 & Hk & H).
      apply lift_Ok in Hk. unfold scanner_token_to_prefix_token in Hk. rewrite Et in Hk.
      injection Hk as <-. apply ret_Ok in H. subst x.
      pose proof (IHe _ _ _ _ _ Hr) as Hw.
      destruct rhs as [c|]; [|discriminate Hw]. cbn in *. rewrite Hw. reflexivity.
    + apply lift_Ok in H. discriminate H.
    + apply lift_Ok in H. discriminate H.
    + apply lift_Ok in H. discriminate H.
    + apply lift_Ok in H. discriminate H.
    + apply lift_Ok in H. discriminate H.
    + apply lift_Ok in H. discriminate H.
    + (* Lparen *)
      apply bind_Ok in H as (lhs & i2 & Hr & H).
      apply bind_Ok in H as (nxt & i3 & _ & H).
      destruct (is_rparen (t nxt)); cbn in H.
      * apply ret_Ok in H. subst x. exact (IHe _ _ _ _ _ Hr).
      * discriminate H.
    + apply lift_Ok in H. discriminate H.
    + apply lift_Ok in H. discriminate H.
    + (* Bar *)
      apply bind_Ok in H as (inner & i2 & Hr & H).
      apply bind_Ok in H as (nxt & i3 & _ & H).
      destruct (is_bar (t nxt)); cbn in H.
      * apply ret_Ok in H. subst x. pose proof (IHe _ _ _ _ _ Hr) as Hw.
        destruct inner as [c|]; [|discriminate Hw]. cbn in *. rewrite Hw. reflexivity.
      * discriminate H.
    + apply lift_Ok in H. exact (False_ind _ (log_error_not_Ok _ _ _ H)).
    + apply lift_Ok in H. discriminate H.
  - (* parse_expr *)
    intros mb prev i x i' H. cbn [parse_expr] in H.
    apply bind_Ok in H as (lhs & i1 & Hl & H).
    exact (IHloop _ _ _ _ _ (IHl _ _ _ _ Hl) H).
  - (* the loop *)
    intros mb lhs i x i' Hlhs H. cbn [expr_loop] in H.
    apply bind_Ok in H as (tok & i1 & _ & H).
    revert H; destruct (t tok) eqn:Et; intros H; red_parse H;
      try (apply lift_Ok in H; discriminate H);
      try (apply ret_Ok in H; subst x; exact Hlhs).
    (* Plus, Minus, Multiplication, Division, Modulo: infix *)
    1-5: destruct (_ <? mb); [apply ret_Ok in H; subst x; exact Hlhs|];
      apply bind_Ok in H as (u & i2 & _ & H);
      apply bind_Ok in H as (k & i3 & Hk & H);
      apply lift_Ok in Hk; unfold scanner_token_to_ast_token in Hk; rewrite Et in Hk;
      injection Hk as <-;
      apply bind_Ok in H as (rhs & i4 & Hr & H);
      refine (IHloop _ _ _ _ _ _ H);
      pose proof (IHe _ _ _ _ _ Hr) as Hw;
      destruct lhs as [c1|]; [|discriminate Hlhs];
      destruct rhs as [c2|]; [|discriminate Hw];
      cbn in *; rewrite Hlhs, Hw; reflexivity.
    (* Factorial: postfix *)
    destruct (7 <? mb); [apply ret_Ok in H; subst x; exact Hlhs|].
    apply bind_Ok in H as (u & i2 & _ & H).
    apply bind_Ok in H as (k & i3 & Hk & H).
    apply lift_Ok in Hk; unfold scanner_token_to_ast_token in Hk; rewrite Et in Hk.
    injection Hk as <-.
    refine (IHloop _ _ _ _ _ _ H).
    destruct lhs as [c1|]; [|discriminate Hlhs]. cbn in *. rewrite Hlhs. reflexivity.
Qed.

End ParserShape.

(** C6: a successful [build] yields a present root in which every binary
    node (Plus, Minus, Multiply, Divide, Modulo) has both children, every
    unary node (PrefixPlus, PrefixMinus, Factorial, Bar) has its left child
    (and no right one), and Number nodes are leaves; the evaluator has an
    arm for each of the ten node kinds (its [panic!] arm is dead), and an
    absent node evaluates to 0. *)
Theorem C6_build_wf (tokens : list Token) (root : NodePtr) :
  build tokens = Ok root ->
  wf_ptr root = true /\ (exists n, root = Some n /\ wf_node n = true) /\
  recursion None = 0%float.
Proof.
  intros H. unfold build in H.
  destruct (parse_expr tokens (3 * List.length tokens + 3) 0 {| t := None_; pos := 0 |} 0)
    as [[r i]| | |] eqn:E; try discriminate H.
  injection H as <-.
  pose proof (proj1 (proj2 (parser_wf tokens _)) _ _ _ _ _ E) as Hwf.
  split; [exact Hwf|]. split; [|reflexivity].
  destruct r as [n|]; [exists n; split; [reflexivity|exact Hwf]|discriminate Hwf].
Qed.

(** ** The fuel never runs out *)

Section ParserFuel.

Variable tokens : list Token.

Local Abbreviation len := (List.length tokens).

(** A parser outcome that is not [OutOfFuel] and, when [Ok], leaves the
    cursor in [lo .. len]. *)
Definition good {A} (lo : nat) (r : Res (A * nat)) : Prop :=
  match r with
  | Ok (_, j) => lo <= j <= len
  | OutOfFuel => False
  | _ => True
  end.

Lemma good_weaken {A} (lo lo' : nat) (r : Res (A * nat)) :
  lo' <= lo -> good lo r -> good lo' r.
Proof. destruct r as [[a j]| | |]; simpl; auto; lia. Qed.

Lemma bind_good {A B} (m : PM A) (k : A -> PM B) (i lo : nat) :
  good lo (m i) ->
  (forall a j, m i = Ok (a, j) -> good lo (k a j)) ->
  good lo (bind m k i).
Proof.
  unfold bind. destruct (m i) as [[a j]| | |]; simpl; auto.
Qed.

Lemma next_good (i : nat) :
  i <= len ->
  fst (next tokens i) = (if (len <=? i)%nat then end_token else nth i tokens end_token) /\
  snd (next tokens i) = (if (len <=? i)%nat then i else S i).
Proof. unfold next. destruct (len <=? i)%nat; auto. Qed.

Lemma log_error_Err (prev tok : Token) : exists e, log_error prev tok = Err e.
Proof.
  unfold log_error.
  destruct (is_operator (t prev) && is_end (t tok)); [eauto|].
  destruct (is_none (t prev) && is_end (t tok)); eauto.
Qed.

Lemma parser_fuel (fuel : nat) :
  (forall prev i, i <= len -> 3 * (len - i) + 1 <= fuel ->
     good i (parse_lhs tokens fuel prev i)) /\
  (forall mb prev i, i <= len -> 3 * (len - i) + 2 <= fuel ->
     good i (parse_expr tokens fuel mb prev i)) /\
  (forall mb lhs i, i <= len -> 3 * (len - i) + 1 <= fuel ->
     good i (expr_loop tokens fuel mb lhs i)).
Proof.
  induction fuel as [|f [IHl [IHe IHloop]]].
  { split; [|split]; intros; lia. }
  split; [|split].
  - (* parse_lhs *)
    intros prev i Hi Hf. cbn [parse_lhs]. unfold pnext at 1, bind at 1.
    unfold next. 
    destruct (Nat.leb_spec len i) as [Hend|Hlt].
    { (* past the end: the End token, an error *)
      cbn beta iota. destruct (log_error_Err prev end_token) as [e He].
      unfold lift. rewrite He. exact I. }
    set (tok := nth i tokens end_token).
    cbn beta iota.
    destruct (t tok) eqn:Et; cbn beta iota delta [is_operator prefix_binding_power];
      try exact I.
    + simpl. lia.
    + apply bind_good; [apply good_weaken with (S i); [lia|apply IHe; lia]|].
      intros rhs j Hr. pose proof (IHe 5 tok (S i) ltac:(lia) ltac:(lia)) as Hg.
      rewrite Hr in Hg. unfold scanner_token_to_prefix_token; rewrite Et.
      simpl in Hg |- *. lia.
    + apply bind_good; [apply good_weaken with (S i); [lia|apply IHe; lia]|].
      intros rhs j Hr. pose proof (IHe 5 tok (S i) ltac:(lia) ltac:(lia)) as Hg.
      rewrite Hr in Hg. unfold scanner_token_to_prefix_token; rewrite Et.
      simpl in Hg |- *. lia.
    + apply bind_good; [apply good_weaken with (S i); [lia|apply IHe; lia]|].
      intros lhs j Hr. pose proof (IHe 0 tok (S i) ltac:(lia) ltac:(lia)) as Hg.
      rewrite Hr in Hg. simpl in Hg.
      unfold bind, pnext. destruct (next_good j ltac:(lia)) as [_ Hs].
      destruct (next tokens j) as [nxt j'] eqn:En. simpl in Hs.
      destruct (is_rparen (t nxt)); simpl;
        [destruct (Nat.leb_spec len j); lia|exact I].
    + apply bind_good; [apply good_weaken with (S i); [lia|apply IHe; lia]|].
      intros inner j Hr. pose proof (IHe 0 tok (S i) ltac:(lia) ltac:(lia)) as Hg.
      rewrite Hr in Hg. simpl in Hg.
      unfold bind, pnext. destruct (next_good j ltac:(lia)) as [_ Hs].
      destruct (next tokens j) as [nxt j'] eqn:En. simpl in Hs.
      destruct (is_bar (t nxt)); simpl;
        [destruct (Nat.leb_spec len j); lia|exact I].
    + destruct (log_error_Err prev tok) as [e He]. unfold lift. rewrite He. exact I.
  - (* parse_expr *)
    intros mb prev i Hi Hf. cbn [parse_expr].
    apply bind_good; [apply IHl; lia|].
    intros lhs j Hr. pose proof (IHl prev i Hi ltac:(lia)) as Hg.
    rewrite Hr in Hg. simpl in Hg.
    apply good_weaken with j; [lia|]. apply IHloop; lia.
  - (* the loop *)
    intros mb lhs i Hi Hf. cbn [expr_loop]. unfold ppeek at 1, bind at 1.
    unfold peek. 
    destruct (Nat.leb_spec len i) as [Hend|Hlt].
    { cbn. lia. }
    set (tok := nth i tokens end_token).
    cbn beta iota.
    destruct (t tok) eqn:Et;
      cbn beta iota delta [is_operator postfix_binding_power infix_binding_power
        is_rparen is_bar is_end orb]; try exact I; try (simpl; lia).
    (* infix operators *)
    1-5: destruct (_ <? mb); [simpl; lia|];
      unfold bind at 1, pnext at 1, next;
      destruct (Nat.leb_spec len i) as [Hc|_]; [lia|]; cbn beta iota;
      unfold scanner_token_to_ast_token at 1; rewrite Et; cbn beta iota delta [lift bind];
      apply bind_good; [apply good_weaken with (S i); [lia|apply IHe; lia]|];
      intros rhs j Hr;
      match type of Hr with
      | parse_expr _ _ ?r ?tk ?i1 = _ =>
          pose proof (IHe r tk i1 ltac:(lia) ltac:(lia)) as Hg
      end;
      rewrite Hr in Hg; simpl in Hg;
      apply good_weaken with j; [lia|apply IHloop; lia].
    (* postfix factorial *)
    destruct (7 <? mb); [simpl; lia|].
    unfold bind at 1, pnext at 1, next; 
    destruct (Nat.leb_spec len i) as [Hc|_]; [lia|]; cbn beta iota.
    unfold scanner_token_to_ast_token at 1; rewrite Et; cbn beta iota delta [lift bind].
    apply good_weaken with (S i); [lia|]. apply IHloop; lia.
Qed.

End ParserFuel.

Lemma build_never_out_of_fuel (tokens : list Token) : build tokens <> OutOfFuel.
Proof.
  unfold build.
  pose proof (proj1 (proj2 (parser_fuel tokens (3 * List.length tokens + 3)))
                0 {| t := None_; pos := 0 |} 0 ltac:(lia) ltac:(lia)) as Hg.
  destruct (parse_expr tokens (3 * List.length tokens + 3) 0 {| t := None_; pos := 0 |} 0)
    as [[r i]| | |]; simpl in Hg; try discriminate; contradiction.
Qed.

(** Witness for [C6_build_wf]: the tokens of "1 + 2". *)
Lemma C6_witness :
  build [{| t := Number 1; pos := 0 |}; {| t := Plus; pos := 2 |};
         {| t := Number 2; pos := 4 |}; end_token]
    = Ok (Some (bin APlus (leaf 1) (leaf 2))) /\
  wf_ptr (Some (bin APlus (leaf 1) (leaf 2))) = true.
Proof.
  assert (H : build [{| t := Number 1; pos := 0 |}; {| t := Plus; pos := 2 |};
                     {| t := Number 2; pos := 4 |}; end_token]
              = Ok (Some (bin APlus (leaf 1) (leaf 2))))
    by (vm_compute; reflexivity).
  split; [exact H | exact (proj1 (C6_build_wf _ _ H))].
Defined.

(** ** Fuel adequacy *)

Lemma take_number_loop_len (it : list (nat * ascii)) (e : nat) :
  List.length (snd (take_number_loop it e)) <= List.length it.
Proof.
  revert e; induction it as [|[i c] rest IH]; intros e; simpl; [lia|].
  destruct (is_numeric c || Ascii.eqb c "." || Ascii.eqb c "E"); simpl;
    [specialize (IH i); lia|lia].
Qed.

Lemma take_str_loop_len (it : list (nat * ascii)) (e : nat) :
  List.length (snd (take_str_loop it e)) <= List.length it.
Proof.
  revert e; induction it as [|[i c] rest IH]; intros e; simpl; [lia|].
  destruct (is_alphabetic c); simpl; [specialize (IH i); lia|lia].
Qed.

(** Each call of [get_next_token] on a non-empty iterator consumes at least
    one character. *)
Lemma get_next_token_len (expr : string) (i : nat) (c : ascii)
  (rest : list (nat * ascii)) (tok : Token) (it' : list (nat * ascii)) :
  get_next_token expr ((i, c) :: rest) = Some (tok, it') ->
  List.length it' <= List.length rest.
Proof.
  pose proof (take_number_loop_len rest i) as L1.
  pose proof (take_str_loop_len rest i) as L2.
  unfold get_next_token, take_number, take_str.
  destruct (take_number_loop rest i) as [e1 r1].
  destruct (take_str_loop rest i) as [e2 r2]. simpl in L1, L2.
  destruct c as [[] [] [] [] [] [] [] []]; cbn beta iota zeta; intros H.
  all: repeat first
    [ discriminate H
    | injection H as _ <-; simpl; lia
    | match type of H with context [if ?b then _ else _] => destruct b end
    | match type of H with context [parse_f64 ?x] => destruct (parse_f64 x) end
    | destruct rest as [|[j d] rest'] ].
Qed.

Lemma scan_loop_fuel (fuel : nat) :
  forall expr it acc, List.length it < fuel -> scan_loop fuel expr it acc <> ScanOutOfFuel.
Proof.
  induction fuel as [|fuel IH]; intros expr it acc Hlen; [lia|].
  cbn [scan_loop].
  destruct (get_next_token expr it) as [[token it']|] eqn:Eg; [|discriminate].
  assert (Hit' : List.length it' < S fuel - 1 \/ t token = End).
  { destruct it as [|[i c] rest].
    - right. injection Eg as <- _. reflexivity.
    - left. apply get_next_token_len in Eg. simpl in Hlen. lia. }
  destruct (t token) eqn:Et; try discriminate;
    apply IH; destruct Hit' as [Hit'|Hit']; try lia; discriminate Hit'.
Qed.

Lemma char_indices_from_len (i : nat) (s : string) :
  List.length (char_indices_from i s) = String.length s.
Proof. revert i; induction s as [|c s IH]; intros i; simpl; [reflexivity|now rewrite IH]. Qed.

Lemma scan_never_out_of_fuel (s : string) : scan s <> ScanOutOfFuel.
Proof.
  unfold scan. apply scan_loop_fuel. unfold char_indices.
  rewrite char_indices_from_len. lia.
Qed.

(** [evaluate] ends in [Ok], [Err] or a [Panic]: never out of fuel. *)
Lemma evaluate_never_out_of_fuel (s : string) : evaluate s <> OutOfFuel.
Proof.
  unfold evaluate. pose proof (scan_never_out_of_fuel s) as Hs.
  destruct (scan s) as [tokens| |]; try discriminate; [|contradiction].
  pose proof (build_never_out_of_fuel tokens) as Hb.
  destruct (build tokens); try discriminate; contradiction.
Qed.

(** ** The parser's [panic!] arms are dead *)

Definition no_panic {A} (r : Res A) : Prop :=
  match r with Panic _ => False | _ => True end.

Lemma bind_np {A B} (m : PM A) (k : A -> PM B) (i : nat) :
  no_panic (m i) ->
  (forall a j, m i = Ok (a, j) -> no_panic (k a j)) ->
  no_panic (bind m k i).
Proof. unfold bind. destruct (m i) as [[a j]| | |]; simpl; auto. Qed.

Section ParserNoPanic.

Variable tokens : list Token.

Lemma parser_no_panic (fuel : nat) :
  (forall prev i, no_panic (parse_lhs tokens fuel prev i)) /\
  (forall mb prev i, no_panic (parse_expr tokens fuel mb prev i)) /\
  (forall mb lhs i, no_panic (expr_loop tokens fuel mb lhs i)).
Proof.
  induction fuel as [|f [IHl [IHe IHloop]]].
  { split; [|split]; intros; exact I. }
  split; [|split].
  - intros prev i. cbn [parse_lhs]. apply bind_np; [exact I|].
    intros tok i1 _.
    unfold scanner_token_to_prefix_token.
    destruct (t tok) eqn:Et;
      cbn beta iota delta [is_operator prefix_binding_power]; try exact I.
    1-2: apply bind_np; [apply IHe|]; intros ? ? _; exact I.
    + apply bind_np; [apply IHe|]; intros ? ? _.
      apply bind_np; [exact I|]; intros ? ? _. destruct (negb _); exact I.
    + apply bind_np; [apply IHe|]; intros ? ? _.
      apply bind_np; [exact I|]; intros ? ? _. destruct (negb _); exact I.
    + destruct (log_error_Err prev tok) as [e He]. unfold lift. rewrite He. exact I.
  - intros mb prev i. cbn [parse_expr]. apply bind_np; [apply IHl|].
    intros ? ? _. apply IHloop.
  - intros mb lhs i. cbn [expr_loop]. apply bind_np; [exact I|].
    intros tok i1 _. unfold scanner_token_to_ast_token.
    destruct (t tok) eqn:Et;
      cbn beta iota delta [is_operator postfix_binding_power infix_binding_power
        is_rparen is_bar is_end orb]; try exact I.
    all: destruct (_ <? mb); [exact I|].
    all: apply bind_np; [exact I|]; intros ? ? _.
    all: apply bind_np; [exact I|]; intros ? ? _.
    all: try apply IHloop.
    all: apply bind_np; [apply IHe|]; intros ? ? _; apply IHloop.
Qed.

End ParserNoPanic.

Lemma build_not_panic (tokens : list Token) (m : string) : build tokens <> Panic m.
Proof.
  unfold build.
  pose proof (proj1 (proj2 (parser_no_panic tokens (3 * List.length tokens + 3)))
                0 {| t := None_; pos := 0 |} 0) as Hn.
  destruct (parse_expr tokens (3 * List.length tokens + 3) 0 {| t := None_; pos := 0 |} 0)
    as [[r i]| | |]; simpl in Hn; try discriminate; contradiction.
Qed.

(** [build] never panics: its two [panic!] conversions are only reached
    with tokens they convert. *)
Theorem build_never_panics (tokens : list Token) (m : string) : build tokens <> Panic m.
Proof. exact (build_not_panic tokens m). Qed.



(** ** Printing a tree back as tokens, and parsing it again *)

Section Unparse.

Local Open Scope list_scope.

Definition tk0 (k : STokenType) : Token := {| t := k; pos := 0 |}.

(** The scanner token of a binary node kind. *)
Definition binop_token (k : TokenType) : STokenType :=
  match k with
  | APlus => Plus | AMinus => Minus | AMultiply => Multiplication
  | ADivide => Division | AModulo => Modulo
  | APrefixPlus => Plus | APrefixMinus => Minus
  | AFactorial => Factorial | ABar => Bar | ANumber n => Number n
  end.

(** A tree written back as tokens, every non-leaf in its own brackets:
    "(l op r)", "(+l)", "(-l)", "(l!)", "|l|". *)
Fixpoint unparse_node (n : Node) : list Token :=
  let unparse (p : NodePtr) :=
    match p with Some c => unparse_node c | None => [] end in
  match n with
  | Build_Node k l r =>
      match k with
      | ANumber x => [tk0 (Number x)]
      | APlus | AMinus | AMultiply | ADivide | AModulo =>
          [tk0 Lparen] ++ unparse l ++ [tk0 (binop_token k)] ++ unparse r ++ [tk0 Rparen]
      | APrefixPlus | APrefixMinus =>
          [tk0 Lparen; tk0 (binop_token k)] ++ unparse l ++ [tk0 Rparen]
      | AFactorial => [tk0 Lparen] ++ unparse l ++ [tk0 Factorial; tk0 Rparen]
      | ABar => [tk0 Bar] ++ unparse l ++ [tk0 Bar]
      end
  end%list.

Definition ok_or_oof {A} (r : Res A) (x : A) : Prop := r = Ok x \/ r = OutOfFuel.

Lemma next_at (pre rest : list Token) (x : Token) :
  next (pre ++ x :: rest) (List.length pre) = (x, S (List.length pre)).
Proof.
  unfold next. rewrite length_app. simpl.
  destruct (Nat.leb_spec (List.length pre + S (List.length rest)) (List.length pre)); [lia|].
  rewrite app_nth2, Nat.sub_diag by lia. reflexivity.
Qed.

Lemma peek_at (pre rest : list Token) (x : Token) :
  peek (pre ++ x :: rest) (List.length pre) = x.
Proof.
  unfold peek. rewrite length_app. simpl.
  destruct (Nat.leb_spec (List.length pre + S (List.length rest)) (List.length pre)); [lia|].
  rewrite app_nth2, Nat.sub_diag by lia. reflexivity.
Qed.

Lemma next_split (tokens pre rest : list Token) (x : Token) (i : nat) :
  tokens = (pre ++ x :: rest)%list -> i = List.length pre -> next tokens i = (x, S i).
Proof. intros -> ->. apply next_at. Qed.

Lemma peek_split (tokens pre rest : list Token) (x : Token) (i : nat) :
  tokens = (pre ++ x :: rest)%list -> i = List.length pre -> peek tokens i = x.
Proof. intros -> ->. apply peek_at. Qed.

Lemma ok_or_oof_bind {A B} (m : PM A) (k : A -> PM B) (i : nat) (a : A) (j : nat) (y : B * nat) :
  ok_or_oof (m i) (a, j) -> ok_or_oof (k a j) y -> ok_or_oof (bind m k i) y.
Proof.
  unfold bind. intros [-> | ->] H; [exact H|right; reflexivity].
Qed.

Lemma loop_at_closer (tokens : list Token) (fuel mb : nat) (lhs : NodePtr) (i : nat) (c : Token) :
  peek tokens i = c ->
  is_rparen (t c) || is_bar (t c) || is_end (t c) = true ->
  ok_or_oof (expr_loop tokens fuel mb lhs i) (lhs, i).
Proof.
  intros Hp Hc. destruct fuel as [|f]; [right; reflexivity|].
  left. cbn [expr_loop]. unfold bind at 1, ppeek. rewrite Hp.
  destruct (t c); try discriminate Hc; reflexivity.
Qed.

Ltac norm_list :=
  repeat (rewrite <- app_assoc); cbn [app]; repeat (rewrite <- app_assoc); cbn [app].

Ltac tok_eq Ht := rewrite Ht; norm_list; reflexivity.

Ltac len_eq := repeat (first [rewrite length_app | progress cbn [List.length]]); lia.

Ltac fin_pos :=
  cbv beta;
  match goal with
  | |- Ok (?a, ?x) = Ok (?b, ?y) => replace y with x by len_eq; reflexivity
  end.

Ltac red_step :=
  cbn [tk0 t pos is_operator postfix_binding_power infix_binding_power
       prefix_binding_power is_rparen is_bar is_end orb negb Nat.ltb Nat.leb
       scanner_token_to_ast_token scanner_token_to_prefix_token].

Ltac step_next Ht pre' :=
  eapply ok_or_oof_bind;
  [ left; unfold pnext; cbv beta; erewrite (next_split _ pre') by (tok_eq Ht || len_eq);
    reflexivity
  | red_step ].

Ltac step_peek Ht pre' :=
  eapply ok_or_oof_bind;
  [ left; unfold ppeek; reflexivity
  | erewrite (peek_split _ pre') by (tok_eq Ht || len_eq); red_step ].

Ltac step_lift := eapply ok_or_oof_bind; [left; reflexivity|].

Ltac loop_stop Ht pre' :=
  eapply loop_at_closer;
  [ erewrite (peek_split _ pre') by (tok_eq Ht || len_eq); reflexivity
  | reflexivity ].

Lemma parse_unparse (tokens : list Token) (fuel : nat) :
  forall n pre rest prev i,
  wf_node n = true ->
  tokens = pre ++ unparse_node n ++ rest ->
  i = List.length pre ->
  ok_or_oof (parse_lhs tokens fuel prev i)
    (Some n, i + List.length (unparse_node n)).
Proof.
  induction fuel as [fuel IH] using (well_founded_induction lt_wf).
  intros [k l r] pre rest prev i Hwf Ht Hi.
  destruct fuel as [|f]; [right; reflexivity|].
  destruct k; destruct l as [l'|]; destruct r as [r'|]; simpl in Hwf; rewrite ?andb_false_r in Hwf; try discriminate Hwf;
    cbn [unparse_node binop_token] in Ht |- *.
  all: lazymatch type of Ht with
    | _ = _ ++ [tk0 (Number ?x)] ++ _ =>
    left; cbn [parse_lhs]; unfold bind at 1, pnext;
    rewrite (next_split tokens pre rest (tk0 (Number x)) i) by (tok_eq Ht || lia);
    cbn [tk0 t pos]; unfold ret, new_ptr; fin_pos
    | _ = _ ++ ([_] ++ _ ++ [tk0 ?op] ++ _) ++ _ =>
    (* the five binary kinds *)

    apply andb_prop in Hwf as [Hl Hr];
    cbn [parse_lhs];
    step_next Ht pre;
    eapply ok_or_oof_bind;
    [ destruct f as [|f1]; [right; reflexivity|]; cbn [parse_expr];
      eapply ok_or_oof_bind;
      [ eapply (IH f1 ltac:(lia) l' (pre ++ [tk0 Lparen])); [exact Hl|tok_eq Ht|len_eq] | ];
      destruct f1 as [|f2]; [right; reflexivity|]; cbn [expr_loop];
      step_peek Ht (pre ++ tk0 Lparen :: unparse_node l');
      step_next Ht (pre ++ tk0 Lparen :: unparse_node l');
      step_lift;
      eapply ok_or_oof_bind;
      [ destruct f2 as [|f3]; [right; reflexivity|]; cbn [parse_expr];
        eapply ok_or_oof_bind;
        [ eapply (IH f3 ltac:(lia) r' (pre ++ tk0 Lparen :: unparse_node l' ++ [tk0 op]));
            [exact Hr|tok_eq Ht|len_eq] | ];
        loop_stop Ht (pre ++ tk0 Lparen :: unparse_node l' ++ tk0 op :: unparse_node r')
      | ];
      loop_stop Ht (pre ++ tk0 Lparen :: unparse_node l' ++ tk0 op :: unparse_node r')
    | ];
    step_next Ht (pre ++ tk0 Lparen :: unparse_node l' ++ tk0 op :: unparse_node r');
    left; unfold ret, new_ptr; fin_pos
    | _ = _ ++ ([_; tk0 ?op] ++ _) ++ _ =>
    (* PrefixMinus, PrefixPlus *)
    rewrite andb_true_r in Hwf;
    cbn [parse_lhs];
    step_next Ht pre;
    eapply ok_or_oof_bind;
    [ destruct f as [|f1]; [right; reflexivity|]; cbn [parse_expr];
      eapply ok_or_oof_bind;
      [ destruct f1 as [|f2]; [right; reflexivity|]; cbn [parse_lhs];
        step_next Ht (pre ++ [tk0 Lparen]);
        eapply ok_or_oof_bind;
        [ destruct f2 as [|f3]; [right; reflexivity|]; cbn [parse_expr];
          eapply ok_or_oof_bind;
          [ eapply (IH f3 ltac:(lia) l' (pre ++ [tk0 Lparen; tk0 op])); [exact Hwf|tok_eq Ht|len_eq] | ];
          loop_stop Ht (pre ++ tk0 Lparen :: tk0 op :: unparse_node l')
        | ];
        step_lift; left; reflexivity
      | ];
      loop_stop Ht (pre ++ tk0 Lparen :: tk0 op :: unparse_node l')
    | ];
    step_next Ht (pre ++ tk0 Lparen :: tk0 op :: unparse_node l');
    left; unfold ret, new_ptr; fin_pos
    | _ = _ ++ ([tk0 Lparen] ++ _ ++ [tk0 Factorial; tk0 Rparen]) ++ _ =>
    rewrite andb_true_r in Hwf;
    cbn [parse_lhs];
    step_next Ht pre;
    eapply ok_or_oof_bind;
    [ destruct f as [|f1]; [right; reflexivity|]; cbn [parse_expr];
      eapply ok_or_oof_bind;
      [ eapply (IH f1 ltac:(lia) l' (pre ++ [tk0 Lparen])); [exact Hwf|tok_eq Ht|len_eq] | ];
      destruct f1 as [|f2]; [right; reflexivity|]; cbn [expr_loop];
      step_peek Ht (pre ++ tk0 Lparen :: unparse_node l');
      step_next Ht (pre ++ tk0 Lparen :: unparse_node l');
      step_lift;
      loop_stop Ht (pre ++ tk0 Lparen :: unparse_node l' ++ [tk0 Factorial])
    | ];
    step_next Ht (pre ++ tk0 Lparen :: unparse_node l' ++ [tk0 Factorial]);
    left; unfold ret, new_ptr; fin_pos
    | _ = _ ++ ([tk0 Bar] ++ _ ++ [tk0 Bar]) ++ _ =>
    rewrite andb_true_r in Hwf;
    cbn [parse_lhs];
    step_next Ht pre;
    eapply ok_or_oof_bind;
    [ destruct f as [|f1]; [right; reflexivity|]; cbn [parse_expr];
      eapply ok_or_oof_bind;
      [ eapply (IH f1 ltac:(lia) l' (pre ++ [tk0 Bar])); [exact Hwf|tok_eq Ht|len_eq] | ];
      loop_stop Ht (pre ++ tk0 Bar :: unparse_node l')
    | ];
    step_next Ht (pre ++ tk0 Bar :: unparse_node l');
    left; unfold ret, new_ptr; fin_pos
    end.
Qed.


(** Every well-formed tree is what [build] returns on its bracketed token
    form followed by the End sentinel. *)
Theorem build_unparse (n : Node) :
  wf_node n = true -> build (unparse_node n ++ [end_token]) = Ok (Some n).
Proof.
  intros Hwf.
  pose proof (build_never_out_of_fuel (unparse_node n ++ [end_token])) as Hf.
  unfold build in *.
  assert (H : ok_or_oof
    (parse_expr (unparse_node n ++ [end_token])
       (3 * List.length (unparse_node n ++ [end_token]) + 3) 0 {| t := None_; pos := 0 |} 0)
    (Some n, List.length (unparse_node n))).
  { replace (3 * List.length (unparse_node n ++ [end_token]) + 3)
      with (S (3 * List.length (unparse_node n ++ [end_token]) + 2)) by lia.
    cbn [parse_expr]. eapply ok_or_oof_bind.
    - apply (parse_unparse _ _ n [] [end_token]); [exact Hwf|reflexivity|reflexivity].
    - eapply loop_at_closer;
        [apply peek_split with (pre := unparse_node n) (rest := []); reflexivity|reflexivity]. }
  destruct H as [H|H]; rewrite H in *; [reflexivity|contradiction].
Qed.

Lemma build_unparse_witness :
  wf_node (bin APlus (leaf 1) (Build_Node AFactorial (Some (leaf 3)) None)) = true /\
  build (unparse_node (bin APlus (leaf 1) (Build_Node AFactorial (Some (leaf 3)) None))
         ++ [end_token])
    = Ok (Some (bin APlus (leaf 1) (Build_Node AFactorial (Some (leaf 3)) None))).
Proof. split; [reflexivity|apply build_unparse; reflexivity]. Defined.

End Unparse.

(** ** What the scanner's tokens say about the text *)

(** The one-character tokens of [get_next_token], as an if-chain. *)
Definition single_char_token (c : ascii) : option STokenType :=
  if Ascii.eqb c "+" then Some Plus
  else if Ascii.eqb c "-" then Some Minus
  else if Ascii.eqb c "/" then Some Division
  else if Ascii.eqb c "%" then Some Modulo
  else if Ascii.eqb c "^" then Some Power
  else if Ascii.eqb c "!" then Some Factorial
  else if Ascii.eqb c "," then Some Comma
  else if Ascii.eqb c "(" then Some Lparen
  else if Ascii.eqb c ")" then Some Rparen
  else if Ascii.eqb c "[" then Some Lparen
  else if Ascii.eqb c "]" then Some Rparen
  else if Ascii.eqb c "=" then Some Equals
  else if Ascii.eqb c "|" then Some Bar
  else None.

Lemma get_next_token_cons (expr : string) (i : nat) (c : ascii) (rest : list (nat * ascii)) :
  get_next_token expr ((i, c) :: rest) =
  match single_char_token c with
  | Some k => Some ({| t := k; pos := i |}, rest)
  | None =>
      if Ascii.eqb c "*" then
        match rest with
        | [] => Some ({| t := Multiplication; pos := i |}, [])
        | (_, d) :: rest' =>
            if Ascii.eqb d "*" then Some ({| t := Power; pos := i |}, rest')
            else Some ({| t := Multiplication; pos := i |}, rest)
        end
      else if is_numeric c || Ascii.eqb c "." then
        match take_number expr rest i with
        | Some (k, it') => Some ({| t := k; pos := i |}, it')
        | None => None
        end
      else if is_alphabetic c then
        let '(k, it') := take_str expr rest i in Some ({| t := k; pos := i |}, it')
      else Some ({| t := None_; pos := i |}, rest)
  end.
Proof. destruct c as [[] [] [] [] [] [] [] []]; reflexivity. Qed.

(** [take_number]'s loop and [take_str]'s loop are one loop over a
    character class. *)
Fixpoint run_loop (p : ascii -> bool) (it : list (nat * ascii)) (e : nat)
  : nat * list (nat * ascii) :=
  match it with
  | [] => (e, [])
  | (i, c) :: rest => if p c then run_loop p rest i else (e, it)
  end.

Definition is_num_char (c : ascii) : bool :=
  is_numeric c || Ascii.eqb c "." || Ascii.eqb c "E".

Lemma take_number_loop_run (it : list (nat * ascii)) (e : nat) :
  take_number_loop it e = run_loop is_num_char it e.
Proof. revert e; induction it as [|[i c] rest IH]; intros e; simpl; [reflexivity|]. now rewrite IH. Qed.

Lemma take_str_loop_run (it : list (nat * ascii)) (e : nat) :
  take_str_loop it e = run_loop is_alphabetic it e.
Proof. revert e; induction it as [|[i c] rest IH]; intros e; simpl; [reflexivity|]. now rewrite IH. Qed.

(** The text from byte [n] on. *)
Fixpoint str_drop (n : nat) (s : string) : string :=
  match n with
  | O => s
  | S n' => match s with EmptyString => EmptyString | String _ s' => str_drop n' s' end
  end.

Lemma str_drop_cons (k : nat) (s r : string) (c : ascii) :
  str_drop k s = String c r -> String.get k s = Some c /\ str_drop (S k) s = r.
Proof.
  revert s; induction k as [|k IH]; intros s H.
  - simpl in H. subst s. split; reflexivity.
  - destruct s as [|c0 s0]; [discriminate H|]. simpl in H |- *. exact (IH s0 H).
Qed.

Lemma str_drop_length (k : nat) (s : string) :
  String.length (str_drop k s) = String.length s - k.
Proof.
  revert s; induction k as [|k IH]; intros s; [simpl; lia|].
  destruct s as [|c0 s0]; simpl; [reflexivity|]. apply IH.
Qed.

Lemma get_ge (j : nat) (s : string) : String.length s <= j -> String.get j s = None.
Proof.
  revert j; induction s as [|c s IH]; intros j Hj; [reflexivity|].
  destruct j as [|j]; simpl in Hj; [lia|]. simpl. apply IH. lia.
Qed.

(** [a .. b) is a run of characters of class [p] that cannot be extended
    to the right. *)
Definition maximal_run (s : string) (p : ascii -> bool) (a b : nat) : Prop :=
  a <= b <= String.length s /\
  (forall j, a <= j < b -> exists c, String.get j s = Some c /\ p c = true) /\
  (b < String.length s -> exists c, String.get b s = Some c /\ p c = false).

Lemma run_loop_drop (s : string) (p : ascii -> bool) (m : nat) :
  forall k e, String.length s - k = m -> k <= String.length s ->
  exists q, maximal_run s p k q /\
    run_loop p (char_indices_from k (str_drop k s)) e
      = (if q =? k then e else q - 1, char_indices_from q (str_drop q s)).
Proof.
  induction m as [|m IH]; intros k e Hm Hk.
  - exists k. assert (Hd : str_drop k s = EmptyString).
    { pose proof (str_drop_length k s) as L. destruct (str_drop k s); [reflexivity|simpl in L; lia]. }
    rewrite Hd, Nat.eqb_refl. split; [|reflexivity].
    split; [lia|]. split; [intros; lia|intros; lia].
  - destruct (str_drop k s) as [|c r] eqn:Hd.
    { pose proof (str_drop_length k s) as L. rewrite Hd in L. simpl in L. lia. }
    destruct (str_drop_cons k s r c Hd) as [Hg Hr].
    cbn [char_indices_from run_loop].
    destruct (p c) eqn:Hp.
    + destruct (IH (S k) k ltac:(lia) ltac:(lia)) as (q & Hq & Heq).
      rewrite Hr in Heq. rewrite Heq.
      destruct Hq as (Hq1 & Hq2 & Hq3).
      exists q. split.
      * split; [lia|]. split; [|exact Hq3].
        intros j Hj. destruct (Nat.eq_dec j k) as [->|]; [eauto|apply Hq2; lia].
      * replace (q =? k) with false by (symmetry; apply Nat.eqb_neq; lia).
        replace (if q =? S k then k else q - 1) with (q - 1)
          by (destruct (Nat.eqb_spec q (S k)); lia).
        reflexivity.
    + exists k. rewrite Nat.eqb_refl, Hd. split; [|reflexivity].
      split; [lia|]. split; [intros; lia|]. intros _. eauto.
Qed.

(** What a token says about the text at its position. *)
Definition tok_ok (s : string) (tok : Token) : Prop :=
  let p := pos tok in
  match t tok with
  | Number n =>
      (exists c, String.get p s = Some c /\ (is_numeric c || Ascii.eqb c ".") = true) /\
      exists q, maximal_run s is_num_char p q /\
        parse_f64 (substring p (q - p) s) = Some n
  | Str w =>
      (exists c, String.get p s = Some c /\ is_alphabetic c = true) /\
      exists q, maximal_run s is_alphabetic p q /\ w = substring p (q - p) s
  | Multiplication => String.get p s = Some "*"%char /\ String.get (S p) s <> Some "*"%char
  | Power =>
      String.get p s = Some "^"%char \/
      (String.get p s = Some "*"%char /\ String.get (S p) s = Some "*"%char)
  | End | None_ => False
  | k => exists c, String.get p s = Some c /\ single_char_token c = Some k
  end.

Lemma single_char_token_kind (c : ascii) (k : STokenType) :
  single_char_token c = Some k ->
  (k = Power /\ c = "^"%char) \/
  (match k with
   | Number _ | Str _ | Multiplication | Power | End | None_ => False
   | _ => True
   end).
Proof.
  unfold single_char_token.
  repeat match goal with
  | |- context [if Ascii.eqb c ?d then _ else _] =>
      destruct (Ascii.eqb_spec c d) as [->|]; [intros H; injection H as <-; simpl; auto|]
  end.
  discriminate.
Qed.

Lemma StronglySorted_snoc (l : list nat) (x : nat) :
  StronglySorted lt l -> Forall (fun y => y < x) l -> StronglySorted lt (l ++ [x]).
Proof.
  induction l as [|y l IH]; intros Hs Hf; simpl.
  - repeat constructor.
  - inversion Hs as [|? ? Hs1 Hs2]; subst. inversion Hf as [|? ? Hf1 Hf2]; subst.
    constructor; [apply IH; assumption|].
    apply Forall_app. split; [assumption|]. constructor; [exact Hf1|constructor].
Qed.

Lemma char_indices_drop (s : string) : char_indices s = char_indices_from 0 (str_drop 0 s).
Proof. reflexivity. Qed.

Section ScanInvariant.

Variable s : string.

Definition acc_inv (k : nat) (acc : list Token) : Prop :=
  Forall (tok_ok s) acc /\ Forall (fun tk => pos tk < k) acc /\ StronglySorted lt (map pos acc).

Lemma acc_inv_snoc (k k' : nat) (acc : list Token) (tok : Token) :
  acc_inv k acc -> tok_ok s tok -> pos tok = k -> k < k' -> acc_inv k' (acc ++ [tok]).
Proof.
  intros (H1 & H2 & H3) Hok Hp Hk. split; [|split].
  - apply Forall_app. auto.
  - apply Forall_app. split; [|constructor; [lia|constructor]].
    eapply Forall_impl; [|exact H2]. simpl; intros; lia.
  - rewrite map_app. simpl. apply StronglySorted_snoc; [exact H3|].
    apply Forall_map. eapply Forall_impl; [|exact H2]. simpl; intros; lia.
Qed.

Lemma acc_inv_weaken (k k' : nat) (acc : list Token) :
  acc_inv k acc -> k <= k' -> acc_inv k' acc.
Proof.
  intros (H1 & H2 & H3) Hk. split; [exact H1|]. split; [|exact H3].
  eapply Forall_impl; [|exact H2]. simpl; intros; lia.
Qed.

Lemma scan_loop_inv (fuel : nat) :
  forall k acc toks, k <= String.length s -> acc_inv k acc ->
  scan_loop fuel s (char_indices_from k (str_drop k s)) acc = Scanned toks ->
  exists pre, toks = (pre ++ [end_token])%list /\ acc_inv (String.length s) pre.
Proof.
  induction fuel as [|fuel IH]; intros k acc toks Hk Hacc H; [discriminate H|].
  cbn [scan_loop] in H.
  destruct (str_drop k s) as [|c r] eqn:Hd.
  { cbn in H. injection H as <-. exists acc. split; [reflexivity|].
    exact (acc_inv_weaken _ _ _ Hacc Hk). }
  destruct (str_drop_cons k s r c Hd) as [Hg Hr].
  assert (Hlt : k < String.length s).
  { pose proof (str_drop_length k s) as L. rewrite Hd in L. simpl in L. lia. }
  cbn [char_indices_from] in H. rewrite get_next_token_cons in H.
  destruct (single_char_token c) as [kk|] eqn:Hs.
  - (* one-character token *)
    destruct (single_char_token_kind c kk Hs) as [[-> ->]|Hkind].
    + cbn [t] in H. rewrite <- Hr in H.
      refine (IH _ _ _ _ _ H); [lia|].
      apply acc_inv_snoc with k; [exact Hacc| |reflexivity|lia]. left. exact Hg.
    + assert (Hok : tok_ok s {| t := kk; pos := k |}).
      { unfold tok_ok. cbn [t pos]. destruct kk; try contradiction; eauto. }
      destruct kk; try contradiction; cbn [t] in H; rewrite <- Hr in H;
        (refine (IH _ _ _ _ _ H); [lia|]);
        apply acc_inv_snoc with k; auto.
  - destruct (Ascii.eqb_spec c "*") as [Hc|Hc].
    + (* '*' or '**' *)
      subst c. destruct r as [|d r'].
      * cbn [t char_indices_from] in H.
        change (@nil (nat * ascii)) with (char_indices_from (S k) "") in H.
        rewrite <- Hr in H.
        refine (IH _ _ _ _ _ H); [lia|].
        apply acc_inv_snoc with k; [exact Hacc| |reflexivity|lia].
        unfold tok_ok; cbn [t pos]. split; [exact Hg|]. rewrite get_ge; [discriminate|].
        pose proof (str_drop_length (S k) s) as L. rewrite Hr in L. simpl in L. cbn [pos]. lia.
      * destruct (str_drop_cons (S k) s r' d Hr) as [Hg2 Hr2].
        cbn [char_indices_from] in H.
        destruct (Ascii.eqb_spec d "*") as [->|Hdc]; cbn [t] in H.
        -- rewrite <- Hr2 in H. refine (IH _ _ _ _ _ H).
           ++ pose proof (str_drop_length (S k) s) as L. rewrite Hr in L. simpl in L. lia.
           ++ apply acc_inv_snoc with k; [exact Hacc| |reflexivity|lia].
              right. split; assumption.
        -- change ((S k, d) :: char_indices_from (S (S k)) r')
             with (char_indices_from (S k) (String d r')) in H.
           rewrite <- Hr in H. refine (IH _ _ _ _ _ H); [lia|].
           apply acc_inv_snoc with k; [exact Hacc| |reflexivity|lia].
           unfold tok_ok; cbn [t pos]. split; [exact Hg|]. rewrite Hg2. congruence.
    + destruct (is_numeric c || Ascii.eqb c ".") eqn:Hnum.
      * (* a number *)
        unfold take_number in H. rewrite take_number_loop_run in H.
        destruct (run_loop_drop s is_num_char _ (S k) k eq_refl ltac:(lia))
          as (q & Hq & Heq).
        rewrite <- Hr in H. rewrite Heq in H.
        destruct Hq as (Hq1 & Hq2 & Hq3).
        replace (if q =? S k then k else q - 1) with (q - 1) in H
          by (destruct (Nat.eqb_spec q (S k)); lia).
        destruct (parse_f64 (slice s k (q - 1 + 1))) as [n|] eqn:Hp; [|discriminate H].
        cbn [t] in H.
        refine (IH _ _ _ _ _ H); [lia|].
        apply acc_inv_snoc with k; [exact Hacc| |reflexivity|lia].
        unfold tok_ok; cbn [t pos]. split; [eauto|].
        exists q. split.
        -- split; [lia|]. split; [|exact Hq3].
           intros j Hj. destruct (Nat.eq_dec j k) as [->|]; [|apply Hq2; lia].
           exists c. split; [exact Hg|]. unfold is_num_char. rewrite Hnum. reflexivity.
        -- unfold slice in Hp. replace (q - 1 + 1 - k) with (q - k) in Hp by lia. exact Hp.
      * destruct (is_alphabetic c) eqn:Halpha.
        -- (* a word *)
           unfold take_str in H. rewrite take_str_loop_run in H.
           destruct (run_loop_drop s is_alphabetic _ (S k) k eq_refl ltac:(lia))
             as (q & Hq & Heq).
           rewrite <- Hr in H. rewrite Heq in H.
           destruct Hq as (Hq1 & Hq2 & Hq3).
           replace (if q =? S k then k else q - 1) with (q - 1) in H
             by (destruct (Nat.eqb_spec q (S k)); lia).
           cbn [t] in H.
           refine (IH _ _ _ _ _ H); [lia|].
           apply acc_inv_snoc with k; [exact Hacc| |reflexivity|lia].
           unfold tok_ok; cbn [t pos]. split; [eauto|].
           exists q. split.
           ++ split; [lia|]. split; [|exact Hq3].
              intros j Hj. destruct (Nat.eq_dec j k) as [->|]; [eauto|apply Hq2; lia].
           ++ unfold slice. f_equal. lia.
        -- (* skipped *)
           cbn [t] in H. rewrite <- Hr in H.
           refine (IH _ _ _ _ _ H); [lia|].
           apply acc_inv_weaken with k; [exact Hacc|lia].
Qed.

End ScanInvariant.

(** Every token [scan] returns before the End sentinel is read off the
    text at its position (a maximal number or letter run, or an operator or
    bracket character); positions are in bounds and strictly increasing,
    and no End or None token occurs before the sentinel. *)
Theorem scan_sound (s : string) (toks : list Token) :
  scan s = Scanned toks ->
  exists pre, toks = (pre ++ [end_token])%list /\
    Forall (tok_ok s) pre /\
    Forall (fun tk => pos tk < String.length s) pre /\
    StronglySorted lt (map pos pre).
Proof.
  unfold scan. rewrite char_indices_drop. intros H.
  destruct (scan_loop_inv s _ 0 [] toks ltac:(lia) ltac:(repeat constructor) H)
    as (pre & -> & H1 & H2 & H3).
  exists pre. auto.
Qed.

Lemma scan_sound_witness :
  scan "2*3" = Scanned [{| t := Number 2; pos := 0 |}; {| t := Multiplication; pos := 1 |};
                        {| t := Number 3; pos := 2 |}; end_token] /\
  exists pre, [{| t := Number 2; pos := 0 |}; {| t := Multiplication; pos := 1 |};
               {| t := Number 3; pos := 2 |}; end_token] = (pre ++ [end_token])%list /\
    Forall (tok_ok "2*3") pre /\
    Forall (fun tk => pos tk < String.length "2*3") pre /\
    StronglySorted lt (map pos pre).
Proof.
  split; [vm_compute; reflexivity|]. apply scan_sound. vm_compute. reflexivity.
Defined.

(** ** Trailing blanks *)

(** The characters [get_next_token] turns into a [None] token, which
    [scan] drops. *)
Definition is_skip (c : ascii) : bool :=
  match single_char_token c with
  | Some _ => false
  | None => negb (Ascii.eqb c "*") && negb (is_numeric c || Ascii.eqb c ".") &&
            negb (is_alphabetic c)
  end.

Lemma substring_app_l (s u : string) (p m : nat) :
  p + m <= String.length s -> substring p m (s ++ u) = substring p m s.
Proof.
  revert p m; induction s as [|x s IH]; intros p m H.
  - simpl in H. destruct p, m; simpl in *; try lia. destruct u; reflexivity.
  - destruct p as [|p]; simpl in H |- *.
    + destruct m as [|m]; [reflexivity|]. f_equal. apply (IH 0 m). lia.
    + apply IH. lia.
Qed.

Lemma run_loop_snoc (p : ascii -> bool) (n : nat) (c : ascii) (it : list (nat * ascii)) (e : nat) :
  p c = false ->
  run_loop p (it ++ [(n, c)])%list e = (fst (run_loop p it e), (snd (run_loop p it e) ++ [(n, c)])%list).
Proof.
  intros Hc. revert e; induction it as [|[i x] rest IH]; intros e; simpl.
  - rewrite Hc. reflexivity.
  - destruct (p x); [apply IH|reflexivity].
Qed.

Lemma run_loop_bound (p : ascii -> bool) (L : nat) (it : list (nat * ascii)) (e : nat) :
  Forall (fun ic => fst ic < L) it -> e < L ->
  fst (run_loop p it e) < L /\ Forall (fun ic => fst ic < L) (snd (run_loop p it e)).
Proof.
  revert e; induction it as [|[i x] rest IH]; intros e Hf He; simpl; [auto|].
  inversion Hf as [|? ? Hi Hr]; subst. simpl in Hi.
  destruct (p x); [apply IH; assumption|simpl; auto].
Qed.

Lemma is_skip_num (c : ascii) : is_skip c = true -> is_num_char c = false.
Proof.
  unfold is_skip, is_num_char. destruct (single_char_token c); [discriminate|].
  intros H. apply andb_prop in H as [H H3]. apply andb_prop in H as [_ H2].
  apply negb_true_iff in H2, H3. rewrite H2. simpl.
  destruct (Ascii.eqb_spec c "E") as [->|]; [discriminate H3|reflexivity].
Qed.

Lemma is_skip_alpha (c : ascii) : is_skip c = true -> is_alphabetic c = false.
Proof.
  unfold is_skip. destruct (single_char_token c); [discriminate|].
  intros H. apply andb_prop in H as [_ H]. apply negb_true_iff in H. exact H.
Qed.

Lemma is_skip_star (c : ascii) : is_skip c = true -> Ascii.eqb c "*" = false.
Proof.
  unfold is_skip. destruct (single_char_token c); [discriminate|].
  intros H. apply andb_prop in H as [H _]. apply andb_prop in H as [H _].
  apply negb_true_iff in H. exact H.
Qed.

Lemma is_skip_gnt (c : ascii) (i : nat) (expr : string) (rest : list (nat * ascii)) :
  is_skip c = true -> get_next_token expr ((i, c) :: rest) = Some ({| t := None_; pos := i |}, rest).
Proof.
  intros H. rewrite get_next_token_cons. unfold is_skip in H.
  destruct (single_char_token c); [discriminate|].
  apply andb_prop in H as [H H3]. apply andb_prop in H as [H1 H2].
  apply negb_true_iff in H1, H2, H3. rewrite H1, H2, H3. reflexivity.
Qed.

Lemma gnt_not_end (expr : string) (i : nat) (x : ascii) (rest it' : list (nat * ascii)) (tok : Token) :
  get_next_token expr ((i, x) :: rest) = Some (tok, it') -> t tok <> End.
Proof.
  rewrite get_next_token_cons.
  destruct (single_char_token x) as [k|] eqn:Hs.
  - intros H; injection H as <- _. cbn [t].
    destruct (single_char_token_kind x k Hs) as [[-> _]|Hk]; [discriminate|].
    destruct k; try contradiction; discriminate.
  - destruct (Ascii.eqb x "*").
    + destruct rest as [|[j d] rest']; [intros H; injection H as <- _; discriminate|].
      destruct (Ascii.eqb d "*"); intros H; injection H as <- _; discriminate.
    + destruct (is_numeric x || Ascii.eqb x ".").
      * unfold take_number. destruct (take_number_loop rest i) as [e r].
        destruct (parse_f64 _); intros H; [injection H as <- _; discriminate|discriminate].
      * destruct (is_alphabetic x).
        -- unfold take_str. destruct (take_str_loop rest i) as [e r].
           intros H; injection H as <- _; discriminate.
        -- intros H; injection H as <- _; discriminate.
Qed.

Lemma scan_loop_S (fuel : nat) (expr : string) (it : list (nat * ascii)) (acc : list Token) :
  scan_loop (S fuel) expr it acc =
  match get_next_token expr it with
  | None => ScanPanic
  | Some (token, it') =>
      match t token with
      | End => Scanned (acc ++ [{| t := End; pos := 0 |}])
      | None_ => scan_loop fuel expr it' acc
      | _ => scan_loop fuel expr it' (acc ++ [token])
      end
  end.
Proof. reflexivity. Qed.

Section TrailingSkip.

Variables (s : string) (c : ascii).
Hypothesis Hc : is_skip c = true.

Definition in_s (it : list (nat * ascii)) : Prop :=
  Forall (fun ic => fst ic < String.length s) it.

Lemma gnt_snoc (i : nat) (x : ascii) (rest : list (nat * ascii)) :
  in_s ((i, x) :: rest) ->
  match get_next_token s ((i, x) :: rest) with
  | None => get_next_token (s ++ String c "") (((i, x) :: rest) ++ [(String.length s, c)])%list = None
  | Some (tok, it') =>
      in_s it' /\
      get_next_token (s ++ String c "") (((i, x) :: rest) ++ [(String.length s, c)])%list
        = Some (tok, (it' ++ [(String.length s, c)])%list)
  end.
Proof.
  intros Hin. inversion Hin as [|? ? Hi Hr]; subst. simpl in Hi.
  cbn [List.app]. rewrite !get_next_token_cons.
  destruct (single_char_token x) as [k|]; [split; [exact Hr|reflexivity]|].
  destruct (Ascii.eqb x "*").
  - destruct rest as [|[j d] rest'].
    + simpl. rewrite (is_skip_star c Hc). split; [constructor|reflexivity].
    + cbn [List.app]. inversion Hr as [|? ? Hj Hr']; subst.
      destruct (Ascii.eqb d "*"); split; auto.
  - destruct (is_numeric x || Ascii.eqb x ".").
    + unfold take_number. rewrite !take_number_loop_run.
      rewrite (run_loop_snoc _ _ _ _ _ (is_skip_num c Hc)).
      destruct (run_loop_bound is_num_char _ rest i Hr Hi) as [Hb Hf].
      destruct (run_loop is_num_char rest i) as [e it']. simpl in Hb, Hf |- *.
      unfold slice. rewrite substring_app_l by lia.
      destruct (parse_f64 (substring i (e + 1 - i) s)); [split; auto|reflexivity].
    + destruct (is_alphabetic x).
      * unfold take_str. rewrite !take_str_loop_run.
        rewrite (run_loop_snoc _ _ _ _ _ (is_skip_alpha c Hc)).
        destruct (run_loop_bound is_alphabetic _ rest i Hr Hi) as [Hb Hf].
        destruct (run_loop is_alphabetic rest i) as [e it']. simpl in Hb, Hf |- *.
        unfold slice. rewrite substring_app_l by lia. split; auto.
      * split; auto.
Qed.

Lemma scan_loop_snoc (fuel : nat) :
  forall it acc, in_s it -> List.length it < fuel ->
  scan_loop (S fuel) (s ++ String c "") (it ++ [(String.length s, c)])%list acc
  = scan_loop fuel s it acc.
Proof.
  induction fuel as [|fuel IH]; intros it acc Hin Hlen; [simpl in Hlen; lia|].
  destruct it as [|[i x] rest].
  - cbn [List.app scan_loop]. rewrite is_skip_gnt by exact Hc. reflexivity.
  - pose proof (gnt_snoc i x rest Hin) as G.
    rewrite (scan_loop_S (S fuel) (s ++ String c "")), (scan_loop_S fuel s).
    destruct (get_next_token s ((i, x) :: rest)) as [[tok it']|] eqn:Eg.
    + destruct G as [Hin' ->].
      pose proof (get_next_token_len _ _ _ _ _ _ Eg) as L. simpl in Hlen.
      destruct (t tok) eqn:Et; try (apply IH; [exact Hin'|lia]).
      (* an [End] token only comes from the empty iterator *)
      exfalso. exact (gnt_not_end _ _ _ _ _ _ Eg Et).
    + rewrite G. reflexivity.
Qed.

End TrailingSkip.

Lemma char_indices_from_app (i : nat) (s u : string) :
  char_indices_from i (s ++ u) = (char_indices_from i s ++ char_indices_from (i + String.length s) u)%list.
Proof.
  revert i; induction s as [|x s IH]; intros i; simpl.
  - now rewrite Nat.add_0_r.
  - rewrite IH. do 3 f_equal. lia.
Qed.

Lemma char_indices_from_bound (i : nat) (s : string) :
  Forall (fun ic => fst ic < i + String.length s) (char_indices_from i s).
Proof.
  revert i; induction s as [|x s IH]; intros i; simpl; constructor.
  - simpl. lia.
  - eapply Forall_impl; [|apply IH]. simpl. intros; lia.
Qed.

Lemma str_length_app (s u : string) :
  String.length (s ++ u) = String.length s + String.length u.
Proof. induction s as [|x s IH]; simpl; [reflexivity|now rewrite IH]. Qed.

Lemma str_app_assoc (a b d : string) : (a ++ b) ++ d = a ++ (b ++ d).
Proof. induction a as [|x a IH]; simpl; [reflexivity|now rewrite IH]. Qed.

Lemma str_app_nil_r (s : string) : s ++ "" = s.
Proof. induction s as [|x s IH]; simpl; [reflexivity|now rewrite IH]. Qed.

Lemma scan_snoc_skip (s : string) (c : ascii) :
  is_skip c = true -> scan (s ++ String c "") = scan s.
Proof.
  intros Hc. unfold scan, char_indices.
  rewrite char_indices_from_app, str_length_app. cbn [String.length char_indices_from Nat.add].
  replace (String.length s + 1) with (S (String.length s)) by lia.
  apply scan_loop_snoc; [exact Hc| |].
  - exact (char_indices_from_bound 0 s).
  - rewrite char_indices_from_len. lia.
Qed.

(** Every character of [u] is one [get_next_token] skips. *)
Fixpoint blank (u : string) : bool :=
  match u with
  | EmptyString => true
  | String c u' => is_skip c && blank u'
  end.

Lemma scan_app_blank_eq (s u : string) :
  blank u = true -> scan (s ++ u) = scan s.
Proof.
  revert s; induction u as [|c u IH]; intros s Hb.
  - now rewrite str_app_nil_r.
  - simpl in Hb. apply andb_prop in Hb as [Hc Hb].
    replace (s ++ String c u) with ((s ++ String c "") ++ u)
      by (now rewrite str_app_assoc).
    rewrite IH by exact Hb. apply scan_snoc_skip. exact Hc.
Qed.

(** Skipped characters at the end of the text do not change the tokens. *)
Theorem scan_app_blank (s u : string) :
  blank u = true -> scan (s ++ u) = scan s.
Proof. exact (scan_app_blank_eq s u). Qed.

(** ... nor the result of [evaluate]: [main] passes the line with its
    line break, which is evaluated as the line without it. *)
Theorem evaluate_app_blank (s u : string) :
  blank u = true -> evaluate (s ++ u) = evaluate s.
Proof. intros Hb. unfold evaluate. now rewrite scan_app_blank_eq. Qed.

(** A text of skipped characters only is the empty expression. *)
Theorem evaluate_blank (u : string) :
  blank u = true -> scan u = Scanned [end_token] /\ evaluate u = Err EmptyExpression.
Proof.
  intros Hb.
  assert (Hs : scan u = Scanned [end_token]).
  { change u with ("" ++ u). rewrite scan_app_blank_eq by exact Hb. reflexivity. }
  split; [exact Hs|]. unfold evaluate. rewrite Hs. vm_compute. reflexivity.
Qed.

Definition line_end : string := String " " (String "013" (String "010" EmptyString)).

Lemma scan_app_blank_witness :
  blank line_end = true /\ scan ("1+2" ++ line_end) = scan "1+2".
Proof. split; [reflexivity|apply scan_app_blank; reflexivity]. Defined.

Lemma evaluate_app_blank_witness :
  blank line_end = true /\ evaluate ("2*3" ++ line_end) = evaluate "2*3".
Proof. split; [reflexivity|apply evaluate_app_blank; reflexivity]. Defined.

Lemma evaluate_blank_witness :
  blank line_end = true /\
  (scan line_end = Scanned [end_token] /\ evaluate line_end = Err EmptyExpression).
Proof. split; [reflexivity|apply evaluate_blank; reflexivity]. Defined.

(** ** Tokens after a stray closer *)

Section StrayCloser.

Variables (pre rest : list Token) (c : Token).
Hypothesis Hc : is_rparen (t c) || is_bar (t c) = true.

Let T1 := (pre ++ [end_token])%list.
Let T2 := (pre ++ c :: rest)%list.
Let L := List.length pre.

Lemma next_T1_lt (i : nat) : i < L -> next T1 i = (nth i pre end_token, S i).
Proof.
  intros Hi. unfold next, T1, T2, L in *. rewrite length_app. cbn [List.length].
  replace (List.length pre + 1 <=? i) with false by (symmetry; apply Nat.leb_gt; lia).
  now rewrite app_nth1.
Qed.

Lemma next_T2_lt (i : nat) : i < L -> next T2 i = (nth i pre end_token, S i).
Proof.
  intros Hi. unfold next, T1, T2, L in *. rewrite length_app. cbn [List.length].
  replace (List.length pre + S (List.length rest) <=? i) with false by (symmetry; apply Nat.leb_gt; lia).
  now rewrite app_nth1.
Qed.

Lemma next_T1_L : next T1 L = (end_token, S L).
Proof.
  unfold next, T1, T2, L in *. rewrite length_app. cbn [List.length].
  replace (List.length pre + 1 <=? List.length pre) with false by (symmetry; apply Nat.leb_gt; lia).
  rewrite app_nth2 by lia. now rewrite Nat.sub_diag.
Qed.

Lemma peek_T1_lt (i : nat) : i < L -> peek T1 i = nth i pre end_token.
Proof.
  intros Hi. unfold peek, T1, T2, L in *. rewrite length_app. cbn [List.length].
  replace (List.length pre + 1 <=? i) with false by (symmetry; apply Nat.leb_gt; lia).
  now rewrite app_nth1.
Qed.

Lemma peek_T2_lt (i : nat) : i < L -> peek T2 i = nth i pre end_token.
Proof.
  intros Hi. unfold peek, T1, T2, L in *. rewrite length_app. cbn [List.length].
  replace (List.length pre + S (List.length rest) <=? i) with false by (symmetry; apply Nat.leb_gt; lia).
  now rewrite app_nth1.
Qed.

Lemma peek_T1_L : peek T1 L = end_token.
Proof.
  unfold peek, T1, T2, L in *. rewrite length_app. cbn [List.length].
  replace (List.length pre + 1 <=? List.length pre) with false by (symmetry; apply Nat.leb_gt; lia).
  rewrite app_nth2 by lia. now rewrite Nat.sub_diag.
Qed.

Lemma peek_T2_L : peek T2 L = c.
Proof.
  unfold peek, T1, T2, L in *. rewrite length_app. cbn [List.length].
  replace (List.length pre + S (List.length rest) <=? List.length pre) with false by (symmetry; apply Nat.leb_gt; lia).
  rewrite app_nth2 by lia. now rewrite Nat.sub_diag.
Qed.

(** A successful run on [T1] from a cursor up to [L] stays up to [L] and is
    a run of the same result on [T2]. *)
Definition sim {A} (m1 m2 : PM A) : Prop :=
  forall i x j, i <= L -> m1 i = Ok (x, j) -> j <= L /\ m2 i = Ok (x, j).

Definition sim_lt {A} (m1 m2 : PM A) : Prop :=
  forall i x j, i < L -> m1 i = Ok (x, j) -> j <= L /\ m2 i = Ok (x, j).

Lemma sim_lt_of_sim {A} (m1 m2 : PM A) : sim m1 m2 -> sim_lt m1 m2.
Proof. intros H i x j Hi. apply H. lia. Qed.

Lemma sim_ret {A} (a : A) : sim (ret a) (ret a).
Proof. intros i x j Hi H. unfold ret in *. injection H as <- <-. auto. Qed.

Lemma sim_lift {A} (r : Res A) : sim (lift r) (lift r).
Proof. intros i x j Hi H. unfold lift in *. destruct r; try discriminate H. injection H as <- <-. auto. Qed.

Lemma sim_bind {A B} (m1 m2 : PM A) (k1 k2 : A -> PM B) :
  sim m1 m2 -> (forall a, sim (k1 a) (k2 a)) -> sim (bind m1 k1) (bind m2 k2).
Proof.
  intros Hm Hk i x j Hi H. apply bind_Ok in H as (a & i1 & H1 & H2).
  destruct (Hm _ _ _ Hi H1) as [Hi1 E]. destruct (Hk a _ _ _ Hi1 H2) as [Hj E2].
  split; [exact Hj|]. unfold bind. now rewrite E.
Qed.

Lemma sim_next {B} (k1 k2 : Token -> PM B) :
  (forall a, sim (k1 a) (k2 a)) -> (forall y j, k1 end_token (S L) <> Ok (y, j)) ->
  sim (bind (pnext T1) k1) (bind (pnext T2) k2).
Proof.
  intros Hk Hend i x j Hi H. unfold bind, pnext in *.
  destruct (Nat.eq_dec i L) as [->|Hne].
  - rewrite next_T1_L in H. exfalso. exact (Hend _ _ H).
  - rewrite next_T1_lt in H by lia. rewrite next_T2_lt by lia.
    refine (Hk _ _ _ _ _ H); lia.
Qed.

Lemma sim_lt_next {B} (k1 k2 : Token -> PM B) :
  (forall a, sim (k1 a) (k2 a)) -> sim_lt (bind (pnext T1) k1) (bind (pnext T2) k2).
Proof.
  intros Hk i x j Hi H. unfold bind, pnext in *.
  rewrite next_T1_lt in H by lia. rewrite next_T2_lt by lia.
  refine (Hk _ _ _ _ _ H); lia.
Qed.

Lemma sim_peek {B} (k1 k2 : Token -> PM B) :
  (forall a, sim_lt (k1 a) (k2 a)) ->
  (forall y j, k1 end_token L = Ok (y, j) -> j <= L /\ k2 c L = Ok (y, j)) ->
  sim (bind (ppeek T1) k1) (bind (ppeek T2) k2).
Proof.
  intros Hk Hend i x j Hi H. unfold bind, ppeek in *.
  destruct (Nat.eq_dec i L) as [->|Hne].
  - rewrite peek_T1_L in H. rewrite peek_T2_L. exact (Hend _ _ H).
  - rewrite peek_T1_lt in H by lia. rewrite peek_T2_lt by lia.
    refine (Hk _ _ _ _ _ H); lia.
Qed.

Ltac sim_step IHl IHe IHloop :=
  first
  [ apply sim_lt_next; intros ?
  | apply sim_next; [intros ? | intros ? ?; cbn; discriminate]
  | apply sim_ret | apply sim_lift
  | apply IHl | apply IHe | apply IHloop
  | apply sim_bind; [|intros ?]
  | progress cbn beta iota delta [is_operator prefix_binding_power postfix_binding_power
      infix_binding_power is_rparen is_bar is_end negb orb andb]
  | match goal with |- context [if ?b then _ else _] => destruct b end
  | apply sim_lt_of_sim ].

Lemma parser_sim (f : nat) :
  forall f', f <= f' ->
  (forall prev, sim (parse_lhs T1 f prev) (parse_lhs T2 f' prev)) /\
  (forall mb prev, sim (parse_expr T1 f mb prev) (parse_expr T2 f' mb prev)) /\
  (forall mb lhs, sim (expr_loop T1 f mb lhs) (expr_loop T2 f' mb lhs)).
Proof.
  induction f as [|g IH]; intros f' Hf.
  { split; [|split]; intros; intros i x j _ H; discriminate H. }
  destruct f' as [|g']; [lia|].
  destruct (IH g' ltac:(lia)) as (IHl & IHe & IHloop).
  split; [|split].
  - intros prev. cbn [parse_lhs]. apply sim_next.
    + intros tok. destruct (t tok); repeat sim_step IHl IHe IHloop.
    + intros y j. cbn. destruct (log_error_Err prev end_token) as [e He].
      unfold lift. rewrite He. discriminate.
  - intros mb prev. cbn [parse_expr]. repeat sim_step IHl IHe IHloop.
  - intros mb lhs. cbn [expr_loop]. apply sim_peek.
    + intros tok. destruct (t tok); repeat sim_step IHl IHe IHloop.
    + intros y j H. cbn in H. injection H as <- <-. split; [lia|].
      destruct (t c); try discriminate Hc; reflexivity.
Qed.

End StrayCloser.

(** Once the parser stops at a top-level Rparen or Bar, nothing after it is
    read: [build] returns what it returns with End in its place. *)
Theorem build_ignores_after_closer (pre rest : list Token) (c : Token) (root : NodePtr) :
  is_rparen (t c) || is_bar (t c) = true ->
  build (pre ++ [end_token]) = Ok root -> build (pre ++ c :: rest) = Ok root.
Proof.
  intros Hc. unfold build.
  set (F1 := 3 * List.length (pre ++ [end_token]) + 3).
  set (F2 := 3 * List.length (pre ++ c :: rest) + 3).
  destruct (parse_expr (pre ++ [end_token]) F1 0 {| t := None_; pos := 0 |} 0)
    as [[r j]| | |] eqn:E; intros H; try discriminate H.
  injection H as <-.
  assert (HF : F1 <= F2) by (unfold F1, F2; rewrite !length_app; cbn [List.length]; lia).
  destruct (proj1 (proj2 (parser_sim pre rest c Hc F1 F2 HF)) 0 {| t := None_; pos := 0 |}
              0 r j ltac:(lia) E) as [_ ->].
  reflexivity.
Qed.

Lemma build_ignores_after_closer_witness :
  is_rparen (t {| t := Rparen; pos := 3 |}) || is_bar (t {| t := Rparen; pos := 3 |}) = true /\
  build ([{| t := Number 1; pos := 0 |}; {| t := Plus; pos := 1 |}; {| t := Number 2; pos := 2 |}]
         ++ [end_token]) = Ok (Some (bin APlus (leaf 1) (leaf 2))) /\
  build ([{| t := Number 1; pos := 0 |}; {| t := Plus; pos := 1 |}; {| t := Number 2; pos := 2 |}]
         ++ {| t := Rparen; pos := 3 |} :: [{| t := Power; pos := 4 |}; end_token])
    = Ok (Some (bin APlus (leaf 1) (leaf 2))).
Proof.
  assert (H : build ([{| t := Number 1; pos := 0 |}; {| t := Plus; pos := 1 |};
                      {| t := Number 2; pos := 2 |}] ++ [end_token])
              = Ok (Some (bin APlus (leaf 1) (leaf 2)))) by (vm_compute; reflexivity).
  split; [reflexivity|]. split; [exact H|].
  apply build_ignores_after_closer; [reflexivity|exact H].
Defined.

(** ** Leading blanks: positions move, results stay *)













Section TypesOnly.

Variables T1 T2 : list Token.
Hypothesis Hty : map t T1 = map t T2.

Lemma types_len : List.length T1 = List.length T2.
Proof. rewrite <- (length_map t T1), <- (length_map t T2). now rewrite Hty. Qed.

Lemma types_nth (i : nat) : t (nth i T1 end_token) = t (nth i T2 end_token).
Proof.
  rewrite <- (map_nth t T1 end_token i), <- (map_nth t T2 end_token i). now rewrite Hty.
Qed.

Lemma types_next (i : nat) :
  t (fst (next T1 i)) = t (fst (next T2 i)) /\ snd (next T1 i) = snd (next T2 i).
Proof.
  unfold next. rewrite types_len.
  destruct (List.length T2 <=? i); [auto|]. split; [apply types_nth|reflexivity].
Qed.

Lemma types_peek (i : nat) : t (peek T1 i) = t (peek T2 i).
Proof.
  unfold peek. rewrite types_len.
  destruct (List.length T2 <=? i); [reflexivity|apply types_nth].
Qed.

(** Each successful run on [T1] is one of the same result on [T2]. *)
Definition sim2 {A} (m1 m2 : PM A) : Prop :=
  forall i x j, m1 i = Ok (x, j) -> m2 i = Ok (x, j).

Lemma sim2_ret {A} (a : A) : sim2 (ret a) (ret a).
Proof. intros i x j H. exact H. Qed.

Lemma sim2_lift {A} (r1 r2 : Res A) :
  (forall x, r1 = Ok x -> r2 = Ok x) -> sim2 (lift r1) (lift r2).
Proof.
  intros Hr i x j H. unfold lift in *. destruct r1 as [a| | |]; try discriminate H.
  rewrite (Hr a eq_refl). exact H.
Qed.

Lemma sim2_bind {A B} (m1 m2 : PM A) (k1 k2 : A -> PM B) :
  sim2 m1 m2 -> (forall a, sim2 (k1 a) (k2 a)) -> sim2 (bind m1 k1) (bind m2 k2).
Proof.
  intros Hm Hk i x j H. apply bind_Ok in H as (a & i1 & H1 & H2).
  unfold bind. rewrite (Hm _ _ _ H1). exact (Hk _ _ _ _ H2).
Qed.

Lemma sim2_next {B} (k1 k2 : Token -> PM B) :
  (forall a1 a2, t a1 = t a2 -> sim2 (k1 a1) (k2 a2)) ->
  sim2 (bind (pnext T1) k1) (bind (pnext T2) k2).
Proof.
  intros Hk i x j H. unfold bind, pnext in *.
  destruct (types_next i) as [Ht Hs].
  destruct (next T1 i) as [a1 i1], (next T2 i) as [a2 i2]. cbn [fst snd] in Ht, Hs. subst i2.
  exact (Hk _ _ Ht _ _ _ H).
Qed.

Lemma sim2_peek {B} (k1 k2 : Token -> PM B) :
  (forall a1 a2, t a1 = t a2 -> sim2 (k1 a1) (k2 a2)) ->
  sim2 (bind (ppeek T1) k1) (bind (ppeek T2) k2).
Proof.
  intros Hk i x j H. unfold bind, ppeek in *.
  exact (Hk _ _ (types_peek i) _ _ _ H).
Qed.

Ltac sim2_step IHl IHe IHloop :=
  first
  [ apply sim2_next; intros ? ? ?
  | apply sim2_peek; intros ? ? ?
  | apply sim2_ret
  | apply sim2_lift; intros ? ?Hr;
      first
      [ discriminate Hr
      | exact (False_ind _ (log_error_not_Ok _ _ _ Hr))
      | unfold scanner_token_to_ast_token, scanner_token_to_prefix_token in *;
        repeat match goal with H : _ = t ?a2 |- context [t ?a2] => rewrite <- H end;
        repeat match goal with H : t ?a1 = _ |- context [t ?a1] => rewrite H end;
        repeat match goal with H : t ?a1 = _, H' : context [t ?a1] |- _ => rewrite H in H' end;
        exact Hr ]
  | apply IHl | apply IHe | apply IHloop
  | apply sim2_bind; [|intros ?]
  | progress cbn beta iota delta [is_operator prefix_binding_power postfix_binding_power
      infix_binding_power is_rparen is_bar is_end negb orb andb]
  | match goal with H : t ?a1 = t ?a2 |- context [t ?a2] => rewrite <- H end
  | match goal with |- context [if ?b then _ else _] => destruct b end ].

Lemma parser_types (f : nat) :
  (forall p1 p2, sim2 (parse_lhs T1 f p1) (parse_lhs T2 f p2)) /\
  (forall mb p1 p2, sim2 (parse_expr T1 f mb p1) (parse_expr T2 f mb p2)) /\
  (forall mb lhs, sim2 (expr_loop T1 f mb lhs) (expr_loop T2 f mb lhs)).
Proof.
  induction f as [|g [IHl [IHe IHloop]]].
  { split; [|split]; intros; intros i x j H; discriminate H. }
  split; [|split].
  - intros p1 p2. cbn [parse_lhs]. apply sim2_next. intros a1 a2 Ha.
    rewrite <- Ha. destruct (t a1) eqn:E1; repeat sim2_step IHl IHe IHloop.
  - intros mb p1 p2. cbn [parse_expr]. repeat sim2_step IHl IHe IHloop.
  - intros mb lhs. cbn [expr_loop]. apply sim2_peek. intros a1 a2 Ha.
    rewrite <- Ha. destruct (t a1) eqn:E1; repeat sim2_step IHl IHe IHloop.
Qed.

Lemma build_types_ok (root : NodePtr) : build T1 = Ok root -> build T2 = Ok root.
Proof.
  unfold build. rewrite types_len.
  destruct (parse_expr T1 _ 0 _ 0) as [[r j]| | |] eqn:E; intros H; try discriminate H.
  rewrite (proj1 (proj2 (parser_types _)) _ _ _ _ _ _ E). exact H.
Qed.

(** The parser reads only token types to succeed: on a token list with the
    same types it builds the same tree. *)
Lemma build_types (root : NodePtr) : build T1 = Ok root -> build T2 = Ok root.
Proof. exact (build_types_ok root). Qed.

End TypesOnly.





Lemma build_types_witness :
  map t [{| t := Number 1; pos := 0 |}; end_token] = map t [{| t := Number 1; pos := 5 |}; {| t := End; pos := 7 |}] /\
  build [{| t := Number 1; pos := 0 |}; end_token] = Ok (Some (leaf 1)) /\
  build [{| t := Number 1; pos := 5 |}; {| t := End; pos := 7 |}] = Ok (Some (leaf 1)).
Proof.
  assert (H : build [{| t := Number 1; pos := 0 |}; end_token] = Ok (Some (leaf 1)))
    by (vm_compute; reflexivity).
  split; [reflexivity|]. split; [exact H|]. exact (build_types _ _ eq_refl _ H).
Defined.
